(** * Private symbols: the polyfill and the CommonJS helpers

    A shallow embedding of [polyfill.js] (the private-symbol registry, the
    censoring reflection functions and the proxy handler filter) and of
    [commonjs-helpers.js] (the exporter's broker factory and the importer
    binding), together with the properties the specification states about
    them.

    JavaScript values are a small inductive type; the host's own operations
    (the native [Reflect] functions, proxy traps written by the user) are
    state transformers over a world; thrown exceptions are an explicit
    [Throw] completion. *)

From stdpp Require Import gmap strings list fin_maps pretty.

Local Open Scope string_scope.

#[global] Set Warnings "-clear-no-such-hyp".

(** ** JavaScript values *)

(** The three kinds of heap objects the code distinguishes: [typeof] sees
    ["object"] or ["function"], [instanceof WeakMap] sees weak maps. *)
Inductive kind := KObject | KFunction | KWeakMap.

(** A reference: an object identity together with its kind. *)
Definition ref : Type := kind * positive.

(** Numbers are restricted to integral values; the code under study never
    computes with them. Symbols are identified by the serial number of
    their creation. *)
Inductive value :=
  | VUndefined
  | VNull
  | VBool (b : bool)
  | VNum (n : Z)
  | VStr (s : string)
  | VSym (id : positive)
  | VRef (r : ref).

(** [typeof v] *)
Definition typeof (v : value) : string :=
  match v with
  | VUndefined => "undefined"
  | VNull => "object"
  | VBool _ => "boolean"
  | VNum _ => "number"
  | VStr _ => "string"
  | VSym _ => "symbol"
  | VRef (KFunction, _) => "function"
  | VRef (_, _) => "object"
  end.

(** [v == null]: true of [null] and [undefined] only. *)
Definition is_nullish (v : value) : bool :=
  match v with
  | VUndefined | VNull => true
  | _ => false
  end.

(** ** Exceptions and completions *)

(** The constructor an exception was built with. [CCustom] stands for an
    error constructor handed in by a caller (the [TE] and [RE] parameters of
    the helpers) that is not one of the three built-in ones. *)
Inductive ctor := CError | CTypeError | CReferenceError | CCustom (n : positive).

Record exn := Exn { exn_ctor : ctor; exn_msg : string }.

Inductive completion (A : Type) :=
  | Ret (a : A)
  | Throw (e : exn).
Arguments Ret {A} a.
Arguments Throw {A} e.

#[global] Instance kind_eq_dec : EqDecision kind.
Proof. solve_decision. Defined.

Definition kind_to_nat (k : kind) : nat :=
  match k with KObject => 0 | KFunction => 1 | KWeakMap => 2 end.

Definition kind_of_nat (n : nat) : kind :=
  match n with 0 => KObject | 1 => KFunction | _ => KWeakMap end.

#[global] Instance kind_countable : Countable kind.
Proof.
  refine (inj_countable' kind_to_nat kind_of_nat _).
  intros []; reflexivity.
Defined.

#[global] Instance value_eq_dec : EqDecision value.
Proof. solve_decision. Defined.

#[global] Instance ctor_eq_dec : EqDecision ctor.
Proof. solve_decision. Defined.

#[global] Instance exn_eq_dec : EqDecision exn.
Proof. solve_decision. Defined.

(** [contains needle hay]: [needle] occurs in [hay]; used to say that an
    error message cites a name. *)
Fixpoint contains (needle hay : string) : bool :=
  String.prefix needle hay ||
  match hay with
  | EmptyString => false
  | String _ rest => contains needle rest
  end.

(** * polyfill.js *)

Module Polyfill.

(** ** The world the polyfill runs in *)

(** A property descriptor, as [Object.getOwnPropertyDescriptor] reports it. *)
Inductive descriptor :=
  | DataDesc (val : value) (writable enumerable configurable : bool)
  | AccessorDesc (getter setter : value) (enumerable configurable : bool).

(** The own properties of an ordinary object, in the order in which
    [[OwnPropertyKeys]] lists them. *)
Definition table : Type := list (value * descriptor).

(** - [data] is the closure variable [const data = new Set()]: it only ever
      receives symbols (through [markPrivate] in [Symbol.private]), so it is
      kept as the set of their serial numbers;
    - [next_sym] is the serial number the next created symbol gets;
    - [globals] are the bindings of the global object, by name;
    - [heap] holds the own-property tables of the ordinary objects. *)
Record world := World {
  data : gset positive;
  next_sym : positive;
  globals : gmap string value;
  heap : gmap ref table;
}.

(** Effectful code: a state transformer that completes normally or throws. *)
Definition M (A : Type) : Type := world → completion A * world.

Definition ret {A} (a : A) : M A := λ w, (Ret a, w).
Definition throw {A} (e : exn) : M A := λ w, (Throw e, w).
Definition bind {A B} (m : M A) (k : A → M B) : M B :=
  λ w, match m w with
       | (Ret a, w') => k a w'
       | (Throw e, w') => (Throw e, w')
       end.

Notation "'let*' x ':=' m 'in' k" := (bind m (λ x, k))
  (at level 10, x name, m at level 100, k at level 200, only parsing).

(** ** The registry *)

(** [const isPrivate = data.has.bind(data)] *)
Definition isPrivate (w : world) (v : value) : bool :=
  match v with
  | VSym id => bool_decide (id ∈ data w)
  | _ => false
  end.

(** [const markPrivate = data.add.bind(data)] *)
Definition markPrivate (id : positive) : M unit :=
  λ w, (Ret (), World ({[id]} ∪ data w) (next_sym w) (globals w) (heap w)).

(** The native [Symbol(name)]: a fresh symbol. The description plays no
    part in the identity of the symbol and is not recorded. *)
Definition OldSymbol (name : option string) : M value :=
  λ w, (Ret (VSym (next_sym w)),
        World (data w) (Pos.succ (next_sym w)) (globals w) (heap w)).

(** [Symbol.private(name)] *)
Definition Symbol_private (name : option string) : M value :=
  let* sym := OldSymbol name in
  match sym with
  | VSym id => let* _ := markPrivate id in ret sym
  | _ => ret sym
  end.

(** Reading a free identifier: the binding of the global object, or a
    [ReferenceError] when there is none. *)
Definition global_ref (name : string) : M value :=
  λ w, match globals w !! name with
       | Some v => (Ret v, w)
       | None => (Throw (Exn CReferenceError (name +:+ " is not defined")), w)
       end.

(** [Symbol.isPrivate(sym)]. The argument of the inner call is the
    identifier [symbol], which no enclosing scope binds. *)
Definition Symbol_isPrivate (sym : value) : M value :=
  if String.eqb (typeof sym) "symbol" then
    let* symbol := global_ref "symbol" in
    λ w, (Ret (VBool (isPrivate w symbol)), w)
  else throw (Exn CTypeError "`sym` is not a symbol!").

(** ** Censoring key arrays *)

(** The loop of [removePrivateKeys]: [i] runs over the array, [count] is
    the write position. The loop test [i < array.length] is evaluated on
    every round; [fuel] bounds the number of rounds. *)
Fixpoint removePrivateKeys_loop (w : world) (fuel i count : nat)
    (array : list value) : nat * list value :=
  match fuel with
  | O => (count, array)
  | S fuel' =>
      if bool_decide (i < length array) then
        let x := default VUndefined (array !! i) in
        if negb (isPrivate w x)
        then removePrivateKeys_loop w fuel' (S i) (S count) (<[count := x]> array)
        else removePrivateKeys_loop w fuel' (S i) count array
      else (count, array)
  end.

(** [removePrivateKeys(array)]: compact in place, then [array.length = count]. *)
Definition removePrivateKeys (w : world) (array : list value) : list value :=
  let '(count, array') := removePrivateKeys_loop w (length array) 0 0 array in
  take count array'.

(** ** The native enumeration functions

    [getOwnPropertySymbols], [getOwnPropertyDescriptors] and [ownKeys] are
    the host's functions, saved in closure variables before the globals are
    replaced. They are modelled on ordinary objects and on primitives. *)

Definition own_table (w : world) (r : ref) : table := default [] (heap w !! r).

(** The own properties of a string wrapper: one per index, then [length]. *)
Fixpoint string_indices (i : nat) (s : string) : table :=
  match s with
  | EmptyString => []
  | String c rest =>
      (VStr (pretty i), DataDesc (VStr (String c EmptyString)) false true false)
        :: string_indices (S i) rest
  end.

Definition string_table (s : string) : table :=
  (string_indices 0 s ++
   [(VStr "length",
     DataDesc (VNum (Z.of_nat (String.length s))) false false false)])%list.

(** The own properties of [ToObject(v)]; [ToObject] throws on [undefined]
    and [null]. *)
Definition ToObject_table (w : world) (v : value) : completion table :=
  match v with
  | VUndefined | VNull =>
      Throw (Exn CTypeError "Cannot convert undefined or null to object")
  | VStr s => Ret (string_table s)
  | VRef r => Ret (own_table w r)
  | _ => Ret []
  end.

Definition is_symbol (v : value) : bool :=
  match v with VSym _ => true | _ => false end.

(** [const ownKeys = Reflect.ownKeys] (native): refuses non-objects. *)
Definition ownKeys (target : value) : M (list value) :=
  λ w, match target with
       | VRef r => (Ret (own_table w r).*1, w)
       | _ => (Throw (Exn CTypeError "Reflect.ownKeys called on non-object"), w)
       end.

(** [const getOwnPropertySymbols = Object.getOwnPropertySymbols] (native) *)
Definition getOwnPropertySymbols (object : value) : M (list value) :=
  λ w, match ToObject_table w object with
       | Ret t => (Ret (List.filter is_symbol t.*1), w)
       | Throw e => (Throw e, w)
       end.

(** [const getOwnPropertyDescriptors = Object.getOwnPropertyDescriptors]
    (native): a fresh record with one descriptor per own key. *)
Definition getOwnPropertyDescriptors (object : value) : M table :=
  λ w, match ToObject_table w object with
       | Ret t => (Ret t, w)
       | Throw e => (Throw e, w)
       end.

(** [delete result[key]] on a descriptor record. *)
Definition delete_key (key : value) (result : table) : table :=
  List.filter (λ kd, negb (bool_decide (kd.1 = key))) result.

(** ** The replaced reflection functions *)

(** [Object.getOwnPropertySymbols(object)] *)
Definition Object_getOwnPropertySymbols (object : value) : M (list value) :=
  let* syms := getOwnPropertySymbols object in
  λ w, (Ret (removePrivateKeys w syms), w).

(** The loop of [Object.getOwnPropertyDescriptors] over [keys]. *)
Fixpoint delete_private (w : world) (keys : list value) (result : table) : table :=
  match keys with
  | [] => result
  | key :: keys' =>
      delete_private w keys'
        (if isPrivate w key then delete_key key result else result)
  end.

(** [Object.getOwnPropertyDescriptors(object)] *)
Definition Object_getOwnPropertyDescriptors (object : value) : M table :=
  let* result := getOwnPropertyDescriptors object in
  let* keys := getOwnPropertySymbols object in
  λ w, (Ret (delete_private w keys result), w).

(** [Reflect.ownKeys(target)] *)
Definition Reflect_ownKeys (target : value) : M (list value) :=
  let* keys := ownKeys target in
  λ w, (Ret (removePrivateKeys w keys), w).

(** ** Proxy handlers *)

(** The traps of a proxy handler other than [ownKeys]. *)
Inductive method :=
  | m_apply | m_construct | m_isExtensible | m_preventExtensions
  | m_getPrototypeOf | m_setPrototypeOf
  | m_defineProperty | m_deleteProperty | m_get
  | m_getOwnPropertyDescriptor | m_has | m_set.

(** The traps whose second argument is a property key: those that
    [filterProxy] builds with [filter]. *)
Definition key_parameterized (m : method) : bool :=
  match m with
  | m_defineProperty | m_deleteProperty | m_get
  | m_getOwnPropertyDescriptor | m_has | m_set => true
  | _ => false
  end.

(** What [handler[method]] can hold: [undefined] or [null], a function, or
    some other value. *)
Inductive slot (T : Type) :=
  | Nullish
  | Callable (f : T)
  | NotCallable.
Arguments Nullish {T}.
Arguments Callable {T} f.
Arguments NotCallable {T}.

(** [body != null] *)
Definition non_null {T} (body : slot T) : bool :=
  match body with Nullish => false | _ => true end.

(** A trap receives its [this] value and the argument list. *)
Definition trap : Type := value → list value → M value.

(** The [ownKeys] trap receives [this] and the target and is taken to
    return an array of keys. *)
Definition ownKeys_trap : Type := value → value → M (list value).

(** The user's handler object: its identity and what each trap name holds. *)
Record handler := Handler {
  handler_this : value;
  handler_trap : method → slot trap;
  handler_ownKeys : slot ownKeys_trap;
}.

(** [const call = Function.call.bind(Function.call)]:
    [call(body, thisArg, ...args)] is [body.call(thisArg, ...args)]. *)
Definition call {A R} (body : slot (value → A → M R)) (this : value) (args : A)
    : M R :=
  match body with
  | Callable f => f this args
  | _ => throw (Exn CTypeError "Function.prototype.call called on non-function")
  end.

(** [filterKey], called by [Array.from] with [this] the array of keys. *)
Definition filterKey (this : list value) (_ : value) (i : nat) : M value :=
  λ w, let key := default VUndefined (this !! i) in
       if isPrivate w key
       then (Throw (Exn CTypeError
                      "`ownKeys` on proxy: trap returned a private symbol as a key"), w)
       else (Ret key, w).

(** [Array.from(items, mapFn, thisArg)] on an array-like [items] that has a
    [length] and no element: every [items[k]] reads [undefined]. *)
Fixpoint arrayFrom_loop {T} (mapFn : T → value → nat → M value) (thisArg : T)
    (fuel k : nat) : M (list value) :=
  match fuel with
  | O => ret []
  | S fuel' =>
      let* mapped := mapFn thisArg VUndefined k in
      let* rest := arrayFrom_loop mapFn thisArg fuel' (S k) in
      ret (mapped :: rest)
  end.

Definition arrayFrom {T} (items_length : nat)
    (mapFn : T → value → nat → M value) (thisArg : T) : M (list value) :=
  arrayFrom_loop mapFn thisArg items_length 0.

(** The handler [filterProxy] returns: one function per trap name. *)
Record filtered_handler := FilteredHandler {
  filtered_trap : method → list value → M value;
  filtered_ownKeys : value → M (list value);
}.

Module filterProxy.
Section filterProxy.

(** [hooks[key] = Reflect[key]]: the native [Reflect] functions, which
    carry out an operation on their first argument without consulting
    any handler. *)
Variable hooks : method → list value → M value.

(** The parameter of [filterProxy]. *)
Variable handler : handler.

(** [forward(method)] *)
Definition forward (method : method) (arguments : list value) : M value :=
  let body := handler_trap handler method in
  if non_null body then call body (handler_this handler) arguments
  else hooks method arguments.

(** [filter(method)]: [key] is the second argument. *)
Definition filter (method : method) (arguments : list value) : M value :=
  λ w,
    let key := default VUndefined (arguments !! 1) in
    if negb (isPrivate w key) then
      let body := handler_trap handler method in
      if non_null body then call body (handler_this handler) arguments w
      else hooks method arguments w
    else hooks method arguments w.

(** The [ownKeys(target)] method of the returned handler. The [ownKeys]
    it falls back on is the native function. *)
Definition ownKeys (target : value) : M (list value) :=
  let body := handler_ownKeys handler in
  if negb (non_null body) then ownKeys target
  else
    let* keys := call body (handler_this handler) target in
    arrayFrom (length keys) filterKey keys.

(** The object literal [filterProxy] returns. *)
Definition filterProxy : filtered_handler :=
  {| filtered_trap method :=
       if key_parameterized method then filter method else forward method;
     filtered_ownKeys := ownKeys |}.

End filterProxy.
End filterProxy.

(** A proxy as the native [Proxy] constructor builds it: the target and the
    handler whose traps the operations on the proxy go through. *)
Record proxy := MkProxy {
  proxy_target : value;
  proxy_handler : filtered_handler;
}.

(** [new Proxy(target, handler)] of the replaced global: the native proxy
    over the filtered handler. *)
Definition Proxy (hooks : method → list value → M value)
    (target : value) (h : handler) : proxy :=
  MkProxy target (filterProxy.filterProxy hooks h).

(** An operation [method] on a proxy with operands [operands] (the key, the
    receiver, ...): the call the native proxy makes of the handler's trap,
    on the target followed by the operands. What the native proxy does with
    the result of the trap afterwards is the host's and is not part of it. *)
Definition proxy_operation (p : proxy) (method : method)
    (operands : list value) : M value :=
  filtered_trap (proxy_handler p) method (proxy_target p :: operands).

(** The call of the handler's [ownKeys] trap that listing the own keys of
    a proxy starts with. It is not the whole operation: the native proxy
    goes on to check the list the trap returned, see
    [proxy_ownPropertyKeys]. *)
Definition proxy_ownKeys_trap (p : proxy) : M (list value) :=
  filtered_ownKeys (proxy_handler p) (proxy_target p).

(** Listing the own keys of a proxy, the [[OwnPropertyKeys]] of the native
    proxy: the call of the trap, then the host's checks of the list it
    returned (every key a string or a symbol, no key twice, the keys of the
    target that are not configurable present, exactly the keys of the
    target when the target is not extensible). The checks are the host's:
    [invariants w target keys] is the type error the host raises for the
    list [keys], if any. *)
Definition proxy_ownPropertyKeys
    (invariants : world → value → list value → option exn) (p : proxy)
    : M (list value) :=
  let* keys := proxy_ownKeys_trap p in
  λ w, match invariants w (proxy_target p) keys with
       | Some e => (Throw e, w)
       | None => (Ret keys, w)
       end.

(** ** Vocabulary of the statements *)

(** A key the registry does not hold. *)
Definition public (w : world) (key : value) : bool := negb (isPrivate w key).

(** Running a native function and censoring what it returns. *)
Definition censored {A} (censor : world → A → A) (r : completion A * world)
    : completion A * world :=
  match r with
  | (Ret a, w) => (Ret (censor w a), w)
  | (Throw e, w) => (Throw e, w)
  end.

(** The key of an operation on a proxy is its first operand. *)
Definition key_of (operands : list value) : value :=
  default VUndefined (operands !! 0).

(** ** A small world to run the code in *)

(** An object [{}] to be the target of a proxy, and the handler object. *)
Definition example_target : value := VRef (KObject, 1%positive).
Definition example_handler_object : value := VRef (KObject, 2%positive).

(** The world at start: no symbol created, no global named [symbol], the
    target without properties. *)
Definition example_world0 : world :=
  World ∅ 1%positive ∅ {[ (KObject, 1%positive) := [] ]}.

(** The world after [const _x = Symbol.private("x")] and
    [target[_x] = 7]: the first symbol is private and is an own key of the
    target. *)
Definition example_world : world :=
  World {[ 1%positive ]} 2%positive ∅
    {[ (KObject, 1%positive) := [(VSym 1%positive, DataDesc (VNum 7) true true true)] ]}.

(** A native [Reflect] for the example: [Reflect.get] reads an own data
    property of an ordinary object, the other functions do nothing. *)
Definition example_hooks (m : method) (arguments : list value) : M value :=
  λ w, match m, arguments with
       | m_get, VRef r :: key :: _ =>
           match List.find (λ kd, bool_decide (kd.1 = key)) (own_table w r) with
           | Some (_, DataDesc v _ _ _) => (Ret v, w)
           | _ => (Ret VUndefined, w)
           end
       | _, _ => (Ret VUndefined, w)
       end.

(** The handler [{ get() { return 1 }, ownKeys() { return ["pub", _x] } }]. *)
Definition example_handler : handler :=
  Handler example_handler_object
    (λ m, match m with
          | m_get => Callable (λ _ _, ret (VNum 1))
          | _ => Nullish
          end)
    (Callable (λ _ _, ret [VStr "pub"; VSym 1%positive])).

(** The serial numbers of the registry are below the next one: the host
    hands out symbols that did not exist before. *)
Definition registry_fresh (w : world) : Prop :=
  ∀ id, id ∈ data w → (id < next_sym w)%positive.

(** What the native [Proxy] does with a trap name of the user's own
    handler: the trap when the handler has one, the native operation on the
    target when it holds [undefined] or [null], a type error otherwise. *)
Definition unfiltered_operation (hooks : method → list value → M value)
    (h : handler) (m : method) (arguments : list value) : M value :=
  match handler_trap h m with
  | Nullish => hooks m arguments
  | Callable f => f (handler_this h) arguments
  | NotCallable =>
      throw (Exn CTypeError "Function.prototype.call called on non-function")
  end.

(** A handler whose [ownKeys] trap does what the default does: it returns
    the native [Reflect.ownKeys(target)]. *)
Definition transparent_ownKeys_handler (this : value) : handler :=
  Handler this (λ _, Nullish) (Callable (λ _ target, ownKeys target)).

End Polyfill.

(** * commonjs-helpers.js *)

Module CommonJS.

(** The contents of the weak maps, by the identity of the weak map. A weak
    map that has no entry here is empty. *)
Abbreviation weak_heap := (gmap positive (gmap ref value)).

(** Effectful code over the weak maps. *)
Definition M (A : Type) : Type := weak_heap → completion A * weak_heap.

Definition ret {A} (a : A) : M A := λ h, (Ret a, h).
Definition throw {A} (e : exn) : M A := λ h, (Throw e, h).
Definition bind {A B} (m : M A) (k : A → M B) : M B :=
  λ h, match m h with
       | (Ret a, h') => k a h'
       | (Throw e, h') => (Throw e, h')
       end.

Notation "'let*' x ':=' m 'in' k" := (bind m (λ x, k))
  (at level 10, x name, m at level 100, k at level 200, only parsing).

(** The receiver of a [WeakMap.prototype] method: the weak map found for a
    key, or [undefined] when [Map.prototype.get] found none. *)
Definition receiver (store : option positive) : completion positive :=
  match store with
  | Some wm => Ret wm
  | None =>
      Throw (Exn CTypeError
               "WeakMap method called on incompatible receiver undefined")
  end.

(** [weakHas(store, O)] *)
Definition weakHas (store : option positive) (O : value) : M bool :=
  λ h, match receiver store with
       | Throw e => (Throw e, h)
       | Ret wm =>
           match O with
           | VRef r => (Ret (bool_decide (is_Some ((h !!! wm) !! r))), h)
           | _ => (Ret false, h)
           end
       end.

(** [weakGet(store, O)] *)
Definition weakGet (store : option positive) (O : value) : M value :=
  λ h, match receiver store with
       | Throw e => (Throw e, h)
       | Ret wm =>
           match O with
           | VRef r => (Ret (default VUndefined ((h !!! wm) !! r)), h)
           | _ => (Ret VUndefined, h)
           end
       end.

(** [weakSet(store, O, V)]: only objects can be keys. *)
Definition weakSet (store : option positive) (O V : value) : M unit :=
  λ h, match receiver store with
       | Throw e => (Throw e, h)
       | Ret wm =>
           match O with
           | VRef r => (Ret (), <[wm := <[r := V]> (h !!! wm)]> h)
           | _ => (Throw (Exn CTypeError "Invalid value used as weak map key"), h)
           end
       end.

(** [value instanceof WeakMap], on what [internalRefs[key]] yields. *)
Definition as_WeakMap (value : option value) : option positive :=
  match value with
  | Some (VRef (KWeakMap, wm)) => Some wm
  | _ => None
  end.

(** What the exporter's setup leaves in its closure: the sets [fallback]
    and [resolved] and the map [exported]. *)
Record broker := Broker {
  fallback : gset string;
  resolved : gmap string (gset string);
  exported : gmap string positive;
}.

(** What a call of the broker factory leaves in the closure of the session
    it returns: the authorized names [refs], the error constructor [TE] and
    the exporter's [exported]. *)
Record session := Session {
  session_refs : gset string;
  session_TE : ctor;
  session_exported : gmap string positive;
}.

(** The three errors [transact] raises, under the names the specification
    gives them. *)
Definition InvalidKey (key : string) : exn :=
  Exn CError ("Invalid private key: #" +:+ key).

Section helpers.

(** [String(v)] for a primitive that is not a string is left to the host;
    on a primitive it always returns. *)
Variable describe : value → string.

(** [String(O)] for an object runs the conversion the object itself has
    ([Symbol.toPrimitive], [toString], [valueOf]), which can throw, and
    throws when the object has none: the string, or the exception. The
    conversion is taken to leave the weak maps alone. *)
Variable object_toString : ref → completion string.

(** [String(v)] of a value that is not an object. *)
Definition toString_primitive (v : value) : string :=
  match v with
  | VStr s => s
  | _ => describe v
  end.

(** [var toString = String] *)
Definition toString (v : value) : completion string :=
  match v with
  | VRef r => object_toString r
  | _ => Ret (toString_primitive v)
  end.

(** The two errors of [transact] that describe the target; [text] is
    [toString(O)]. *)
Definition TypeMismatch (TE : ctor) (key text : string) : exn :=
  Exn TE ("Private key #" +:+ key +:+ " cannot be referenced from non-object "
          +:+ text +:+ "!").

Definition MissingField (TE : ctor) (key text : string) : exn :=
  Exn TE ("Private key #" +:+ key +:+ " does not exist on " +:+ text +:+ "!").

(** [throw new TE("..." + toString(O) + "!")]: the message is built before
    the error is, so that an exception of [toString(O)] is the one thrown. *)
Definition throw_described {A} (error : string → exn) (O : value) : M A :=
  match toString O with
  | Ret text => throw (error text)
  | Throw e => throw e
  end.

(** ** The exporter: [makeExportedKeys] *)

(** [addExported(key)], on the map [exported]. *)
Definition addExported (internalRefs : gmap string value)
    (exported : gmap string positive) (key : string)
    : completion (gmap string positive) :=
  if negb (bool_decide (is_Some (exported !! key))) then
    match as_WeakMap (internalRefs !! key) with
    | Some wm => Ret (<[key := wm]> exported)
    | None => Throw (Exn CError ("Missing private key: #" +:+ key))
    end
  else Ret exported.

(** [names.forEach(addExported)] *)
Fixpoint forEach_addExported (internalRefs : gmap string value)
    (names : list string) (exported : gmap string positive)
    : completion (gmap string positive) :=
  match names with
  | [] => Ret exported
  | key :: names' =>
      match addExported internalRefs exported key with
      | Ret exported' => forEach_addExported internalRefs names' exported'
      | Throw e => Throw e
      end
  end.

(** [names.forEach(value.add, value)] *)
Fixpoint forEach_add (names : list string) (value : gset string) : gset string :=
  match names with
  | [] => value
  | key :: names' => forEach_add names' ({[key]} ∪ value)
  end.

(** [Object.keys(scoped).forEach(function (key) { ... })]: [scoped] is the
    list of its entries in the order of [Object.keys]; [resolve] is
    [req.resolve], which returns a file name or throws. *)
Fixpoint forEach_scoped (internalRefs : gmap string value)
    (resolve : string → completion string) (fallback : gset string)
    (scoped : list (string * list string))
    (resolved : gmap string (gset string)) (exported : gmap string positive)
    : completion (gmap string (gset string) * gmap string positive) :=
  match scoped with
  | [] => Ret (resolved, exported)
  | (key, names) :: scoped' =>
      let value := fallback in
      match forEach_addExported internalRefs names exported with
      | Throw e => Throw e
      | Ret exported' =>
          let value := forEach_add names value in
          match resolve key with
          | Throw e => Throw e
          | Ret filename =>
              forEach_scoped internalRefs resolve fallback scoped'
                (<[filename := value]> resolved) exported'
          end
      end
  end.

(** [makeExportedKeys(internalRefs, req, all, scoped)]; [resolve] is
    [req.resolve]. The function it returns is [factory] below, applied to
    the broker. *)
Definition makeExportedKeys (internalRefs : gmap string value)
    (resolve : string → completion string) (all : list string)
    (scoped : list (string * list string)) : completion broker :=
  let fallback : gset string := list_to_set all in
  match forEach_addExported internalRefs all ∅ with
  | Throw e => Throw e
  | Ret exported =>
      match forEach_scoped internalRefs resolve fallback scoped ∅ exported with
      | Throw e => Throw e
      | Ret (resolved, exported') => Ret (Broker fallback resolved exported')
      end
  end.

(** The loop of the factory over [keys]: the first name that is not
    allowed, or the set [refs] of all of them. Key names are strings
    throughout, on which [toString] is the identity. *)
Fixpoint authorize (allowed : gset string) (keys : list string)
    (refs : gset string) : string + gset string :=
  match keys with
  | [] => inr refs
  | key :: keys' =>
      if negb (bool_decide (key ∈ allowed)) then inl key
      else authorize allowed keys' ({[key]} ∪ refs)
  end.

(** The function [makeExportedKeys] returns. *)
Definition factory (b : broker) (filename : string) (TE : ctor)
    (keys : list string) : string + session :=
  let allowed := default (fallback b) (resolved b !! filename) in
  match authorize allowed keys ∅ with
  | inl key => inl key
  | inr refs => inr (Session refs TE (exported b))
  end.

(** [transact(O, key)]; [key] is a key name, a string. *)
Definition transact (s : session) (O : value) (key : string)
    : M (option positive) :=
  if negb (bool_decide (key ∈ session_refs s)) then throw (InvalidKey key)
  else
    let store := session_exported s !! key in
    if is_nullish O
       || (negb (String.eqb (typeof O) "object")
           && negb (String.eqb (typeof O) "function"))
    then throw_described (TypeMismatch (session_TE s) key) O
    else
      let* present := weakHas store O in
      if negb present then throw_described (MissingField (session_TE s) key) O
      else ret store.

(** The [get] and [set] of the session. *)
Definition session_get (s : session) (O : value) (K : string) : M value :=
  let* store := transact s O K in
  weakGet store O.

Definition session_set (s : session) (O : value) (K : string) (V : value)
    : M value :=
  let* store := transact s O K in
  let* _ := weakSet store O V in
  ret V.

(** ** The importer: [getExportedKeys] *)

(** The hook [exports.__exportedKeys]: called with the file name, [TE] and
    the keys, it answers as the function [makeExportedKeys] returns does,
    with a key name or with a session, or it throws. *)
Definition hook : Type :=
  string → ctor → list string → completion (string + session).

(** The argument [mod] of [init], by what [init] looks at: whether it is an
    object, whether its [exports] is one, and whether
    [exports.__exportedKeys] is a function. *)
Inductive module_instance :=
  | NotAnObject
  | ExportsNotAnObject
  | Exports (exportedKeys : option hook).

(** The closure of an importer: [TE], [RE] and the variable [result]. *)
Record importer := Importer {
  importer_TE : ctor;
  importer_RE : ctor;
  result : string + session;
}.

(** [getExportedKeys(source, TE, RE)]: [result] starts as [String(source)]. *)
Definition getExportedKeys (source : string) (TE RE : ctor) : importer :=
  Importer TE RE (inl source).

Definition not_referenced (RE : ctor) (key from : string) : exn :=
  Exn RE ("Private key #" +:+ key +:+ " could not be referenced from '"
          +:+ from +:+ "'!").

(** [init(mod, filename, keys)], with [modl] for [mod]: the completion and
    the importer after the call. [keys[0]] of an empty array is [undefined]. *)
Definition init (imp : importer) (modl : module_instance) (filename : string)
    (keys : list string) : completion unit * importer :=
  let TE := importer_TE imp in
  let RE := importer_RE imp in
  match modl with
  | NotAnObject | ExportsNotAnObject =>
      (Throw (Exn TE "`mod` is not a module instance!"), imp)
  | Exports exportedKeys =>
      let assigned :=
        match exportedKeys with
        | Some f => f filename TE keys
        | None => Ret (result imp)
        end in
      match assigned with
      | Throw e => (Throw e, imp)
      | Ret (inl from) =>
          (Throw (not_referenced RE (default "undefined" (keys !! 0)) from),
           Importer TE RE (inl from))
      | Ret (inr s) => (Ret (), Importer TE RE (inr s))
      end
  end.

(** [get(O, key)] *)
Definition get (imp : importer) (O : value) (key : string) : M value :=
  match result imp with
  | inl from => throw (not_referenced (importer_RE imp) key from)
  | inr s => session_get s O key
  end.

(** [set(O, key, value)], with [val] for [value]. *)
Definition set (imp : importer) (O : value) (key : string) (val : value)
    : M value :=
  match result imp with
  | inl from => throw (not_referenced (importer_RE imp) key from)
  | inr s => session_set s O key val
  end.

End helpers.

(** ** Vocabulary of the statements *)

(** The key name has a Hidden Store: [internalRefs] maps it to a weak map. *)
Definition has_store (internalRefs : gmap string value) (key : string) : bool :=
  bool_decide (is_Some (as_WeakMap (internalRefs !! key))).

(** The error [addExported] throws for a key name. *)
Definition missing_key (key : string) : exn :=
  Exn CError ("Missing private key: #" +:+ key).

(** Every exported name is mapped to the weak map [internalRefs] has for it. *)
Definition stored (internalRefs : gmap string value)
    (exported : gmap string positive) : Prop :=
  ∀ key wm, exported !! key = Some wm → as_WeakMap (internalRefs !! key) = Some wm.

(** The key names the exporter refers to: the global list, then the list
    of each consumer. *)
Definition referenced (all : list string)
    (scoped : list (string * list string)) : list string :=
  (all ++ concat scoped.*2)%list.

(** [req.resolve] answers for every name [scoped] has an entry for. *)
Definition resolves (resolve : string → completion string)
    (scoped : list (string * list string)) : Prop :=
  ∀ key, key ∈ scoped.*1 → ∃ filename, resolve key = Ret filename.

(** The key list [scoped] holds for a consumer: that of the entry whose
    name resolves to the consumer; of the last such entry when several
    names resolve to the same consumer. *)
Fixpoint perConsumerKeys (resolve : string → completion string)
    (scoped : list (string * list string)) (consumer : string)
    : option (list string) :=
  match scoped with
  | [] => None
  | (key, names) :: scoped' =>
      match perConsumerKeys resolve scoped' consumer with
      | Some later => Some later
      | None =>
          match resolve key with
          | Ret filename =>
              if decide (filename = consumer) then Some names else None
          | Throw _ => None
          end
      end
  end.

(** The effective allow-list of a consumer: the global key list, together
    with the consumer's own list when it has one. *)
Definition effective_allow_list (resolve : string → completion string)
    (all : list string)
    (scoped : list (string * list string)) (consumer : string) : gset string :=
  match perConsumerKeys resolve scoped consumer with
  | Some names => list_to_set all ∪ list_to_set names
  | None => list_to_set all
  end.

(** The states of an importer binding: [result] holds a string until an
    [init] succeeds (Unbound, then Poisoned), a session afterwards. *)
Definition poisoned (imp : importer) : Prop := ∃ name, result imp = inl name.
Definition bound (imp : importer) : Prop := ∃ s, result imp = inr s.

(** ** A small exporter and importer *)

(** The exporter keeps the field ["elem"] in the weak map 1 and the field
    ["secret"] in the weak map 2; it exports ["elem"] to every module and
    ["secret"] to ["./friend.js"] only. Values that are not strings are
    described by their type. *)
Definition example_describe (v : value) : string := "[" +:+ typeof v +:+ "]".

Definition example_internalRefs : gmap string value :=
  {[ "elem" := VRef (KWeakMap, 1%positive);
     "secret" := VRef (KWeakMap, 2%positive) ]}.

Definition example_resolve (name : string) : completion string :=
  Ret ("/app/" +:+ name).

Definition example_all : list string := ["elem"].

Definition example_scoped : list (string * list string) :=
  [("friend.js", ["secret"])].

(** What [makeExportedKeys] leaves in the closure for this exporter. *)
Definition example_broker : broker :=
  Broker {[ "elem" ]}
    {[ "/app/friend.js" := {[ "elem"; "secret" ]} ]}
    {[ "elem" := 1%positive; "secret" := 2%positive ]}.

(** The session ["/app/importer.js"] gets when it asks for ["elem"]. *)
Definition example_session : session :=
  Session {[ "elem" ]} CTypeError
    {[ "elem" := 1%positive; "secret" := 2%positive ]}.

(** An object that has the field, with value 5, and the weak maps. *)
Definition example_object : value := VRef (KObject, 7%positive).

Definition example_heap : weak_heap :=
  {[ 1%positive := {[ (KObject, 7%positive) := VNum 5 ]} ]}.

(** The exporter module, and the importer of ["./exporter.js"]. *)
Definition example_module : module_instance :=
  Exports (Some (λ filename TE keys, Ret (factory example_broker filename TE keys))).

Definition example_importer : importer :=
  getExportedKeys "./exporter.js" CTypeError CReferenceError.

(** The importer after an [init] that asked for ["elem"] and for ["foo"],
    which the exporter does not export. *)
Definition example_poisoned : importer :=
  (init example_importer example_module "/app/importer.js" ["elem"; "foo"]).2.

(** The importer after an [init] that asked for ["elem"] only. *)
Definition example_bound : importer :=
  (init example_importer example_module "/app/importer.js" ["elem"]).2.

(** The module of an exporter whose setup left the broker [b]: its
    [exports.__exportedKeys] is the function [makeExportedKeys] returned. *)
Definition exporter_module (b : broker) : module_instance :=
  Exports (Some (λ filename TE keys, Ret (factory b filename TE keys))).

(** An exporter that has two entries for the friend module, the later one
    empty: a resolver that sends every name to the friend's file, and what
    the setup leaves in the closure. *)
Definition example_resolve_friend (name : string) : completion string :=
  Ret "/app/friend.js".

Definition example_scoped_twice : list (string * list string) :=
  [("friend.js", ["secret"]); ("./friend.js", [])].

Definition example_broker_twice : broker :=
  Broker {[ "elem" ]}
    {[ "/app/friend.js" := {[ "elem" ]} ]}
    {[ "elem" := 1%positive; "secret" := 2%positive ]}.

(** The exception thrown where the code throws an error that describes
    the target: the error built with [toString(O)], or the exception of
    [toString(O)]. *)
Definition described_error (describe : value → string)
    (object_toString : ref → completion string) (error : string → exn)
    (O : value) : exn :=
  match toString describe object_toString O with
  | Ret text => error text
  | Throw e => e
  end.

(** Objects with the [toString] of [Object.prototype], and objects that
    have none, such as [Object.create(null)]. *)
Definition example_object_toString (r : ref) : completion string :=
  Ret "[object Object]".

Definition bare_object_toString (r : ref) : completion string :=
  Throw (Exn CTypeError "Cannot convert object to primitive value").

(** An exporter whose consumer's file cannot be resolved. *)
Definition example_resolve_fails (name : string) : completion string :=
  Throw (Exn CError ("Cannot find module '" +:+ name +:+ "'")).

(** The error a [WeakMap.prototype] method throws on [undefined]. *)
Definition incompatible_receiver : exn :=
  Exn CTypeError "WeakMap method called on incompatible receiver undefined".

End CommonJS.

(** * commonjs-helpers.js: the importer for [__exportedRefs]

    The second [getExportedKeys] of the file, for exporters that publish
    their weak maps themselves in [exports.__exportedRefs]. *)

Module ExportedRefs.
Import CommonJS.

(** The variable [exported]: [String(source)] at first, later the map
    [censored] from key names to weak maps. *)
Abbreviation binding := (string + gmap string positive)%type.

(** The argument [mod] of [init], by what [init] looks at: whether it is an
    object, whether its [exports] is one, and [exports.__exportedRefs] when
    that is an object: its own enumerable properties with string names, in
    the order of [Object.keys]. It is taken to have no other property under
    a name that [init] looks up. *)
Inductive module_instance :=
  | NotAnObject
  | ExportsNotAnObject
  | Exports (exportedRefs : option (list (string * value))).

(** [String(keys)] for an array of strings: its elements joined by commas. *)
Fixpoint array_toString (keys : list string) : string :=
  match keys with
  | [] => ""
  | [key] => key
  | key :: keys' => key +:+ "," +:+ array_toString keys'
  end.

(** The names [for (var key in array)] runs through on an array of length
    [n]: its indices. *)
Definition index_names (n : nat) : list string := pretty <$> seq 0 n.

(** [hasOwn(array, name)] on an array of length [n]: its own properties are
    its indices and [length]. *)
Definition hasOwn_array (n : nat) (name : string) : bool :=
  bool_decide (name ∈ (index_names n ++ ["length"])%list).

(** [exportedRefs[key]] *)
Definition property (exportedRefs : list (string * value)) (key : string)
    : option value :=
  snd <$> List.find (λ kv, String.eqb kv.1 key) exportedRefs.

(** The first loop of [init], over the names [for ... in exportedKeys]
    yields; [own] is [hasOwn(exportedKeys, keys)], which is the same on
    every round. [weakGet(value, {})] throws unless [value] is a weak map. *)
Fixpoint censor (exportedRefs : list (string * value)) (own : bool)
    (names : list string) (censored : gmap string positive)
    : completion (gmap string positive) :=
  match names with
  | [] => Ret censored
  | key :: names' =>
      if own then
        match as_WeakMap (property exportedRefs key) with
        | Some wm => censor exportedRefs own names' (<[key := wm]> censored)
        | None => Throw (Exn CError ("Missing private key: #" +:+ key))
        end
      else censor exportedRefs own names' censored
  end.

(** The second loop of [init]: the first requested name [censored] has
    nothing for. *)
Definition first_missing (censored : gmap string positive)
    (keys : list string) : option string :=
  List.find (λ key, negb (bool_decide (is_Some (censored !! key)))) keys.

(** The last statement of [init]. *)
Definition finish (exported : binding) (missing : option string)
    (keys : list string) : completion unit * binding :=
  match exported with
  | inl from =>
      (Throw (not_referenced CReferenceError
                (default (default "undefined" (keys !! 0)) missing) from),
       exported)
  | inr _ => (Ret (), exported)
  end.

(** [init(mod, keys)], with [modl] for [mod]: the completion and the
    variable [exported] after the call. *)
Definition init (exported : binding) (modl : module_instance)
    (keys : list string) : completion unit * binding :=
  match modl with
  | NotAnObject | ExportsNotAnObject =>
      (Throw (Exn CTypeError "`mod` is not a module instance!"), exported)
  | Exports None => finish exported None keys
  | Exports (Some exportedRefs) =>
      let exportedKeys := exportedRefs.*1 in
      let own := hasOwn_array (length exportedKeys) (array_toString keys) in
      match censor exportedRefs own (index_names (length exportedKeys)) ∅ with
      | Throw e => (Throw e, exported)
      | Ret censored =>
          let missing := first_missing censored keys in
          finish (match missing with
                  | None => inr censored
                  | Some _ => exported
                  end) missing keys
      end
  end.

Section helpers.

(** [String(v)] for a primitive that is not a string, and [String(O)] for
    an object, as for the other helpers. *)
Variable describe : value → string.
Variable object_toString : ref → completion string.

(** What the free identifier [V] of [set] is bound to on the global
    object, if anything. *)
Variable global_V : option value.

(** [transact(O, key)] *)
Definition transact (exported : binding) (O : value) (key : string)
    : M positive :=
  match exported with
  | inl from => throw (not_referenced CReferenceError key from)
  | inr exported =>
      match exported !! key with
      | None => throw (InvalidKey key)
      | Some store =>
          if is_nullish O
             || (negb (String.eqb (typeof O) "object")
                 && negb (String.eqb (typeof O) "function"))
          then throw_described describe object_toString
                 (TypeMismatch CTypeError key) O
          else
            let* present := weakHas (Some store) O in
            if negb present
            then throw_described describe object_toString
                   (MissingField CTypeError key) O
            else ret store
      end
  end.

(** [get(O, key)] *)
Definition get (exported : binding) (O : value) (key : string) : M value :=
  let* store := transact exported O key in
  weakGet (Some store) O.

(** [set(O, key, value)], with [val] for [value]. The call stores and
    returns [V], which is not a parameter: it is read after
    [transact(O, key)] has returned. *)
Definition set (exported : binding) (O : value) (key : string) (val : value)
    : M value :=
  let* store := transact exported O key in
  match global_V with
  | None => throw (Exn CReferenceError "V is not defined")
  | Some V => let* _ := weakSet (Some store) O V in ret V
  end.

End helpers.

(** [getExportedKeys(source)]: [exported] starts as [String(source)]. *)
Definition getExportedKeys (source : string) : binding := inl source.

(** ** Vocabulary of the statements *)

(** A string of decimal digits. *)
Definition is_digit (c : Ascii.ascii) : bool :=
  let code := Ascii.nat_of_ascii c in
  (48 <=? code)%nat && (code <=? 57)%nat.

Fixpoint all_digits (s : string) : bool :=
  match s with
  | EmptyString => true
  | String c rest => is_digit c && all_digits rest
  end.

(** The names a binding has weak maps for are decimal numerals. *)
Definition numeral_names (exported : binding) : Prop :=
  match exported with
  | inl _ => True
  | inr m => ∀ key, is_Some (m !! key) → all_digits key = true
  end.

(** The variable [exported] after a series of [init] calls, thrown
    exceptions caught. *)
Fixpoint inits (exported : binding)
    (calls : list (module_instance * list string)) : binding :=
  match calls with
  | [] => exported
  | (modl, keys) :: calls' => inits (init exported modl keys).2 calls'
  end.

(** A module that publishes the weak maps 1 and 2 as ["elem"] and ["x"]. *)
Definition example_refs_module : module_instance :=
  Exports (Some [("elem", VRef (KWeakMap, 1%positive));
                 ("x", VRef (KWeakMap, 2%positive))]).

End ExportedRefs.

(** * Properties of polyfill.js *)

Module PolyfillFacts.
Import Polyfill.
Local Open Scope nat_scope.
Local Open Scope list_scope.

(** ** The registry *)

Lemma isPrivate_symbol w v : isPrivate w v = true → ∃ id, v = VSym id ∧ id ∈ data w.
Proof.
  destruct v; simpl; try discriminate.
  intros H%bool_decide_eq_true. eauto.
Qed.

Lemma Symbol_private_marks name w :
  ∃ id w', Symbol_private name w = (Ret (VSym id), w')
           ∧ isPrivate w' (VSym id) = true
           ∧ isPrivate w (VSym id) = isPrivate w (VSym (next_sym w))
           ∧ data w ⊆ data w'.
Proof.
  exists (next_sym w). eexists. split; [reflexivity|].
  simpl. split; [|split; [done|set_solver]].
  apply bool_decide_eq_true. set_solver.
Qed.

(** Creating keys never takes one out of the registry. *)
Lemma Symbol_private_monotone name w v :
  isPrivate w v = true → isPrivate (Symbol_private name w).2 v = true.
Proof.
  intros (id & -> & Hin)%isPrivate_symbol. simpl.
  apply bool_decide_eq_true. set_solver.
Qed.

(** The type check of [Symbol.isPrivate]. *)
Lemma Symbol_isPrivate_not_symbol v w :
  is_symbol v = false →
  Symbol_isPrivate v w = (Throw (Exn CTypeError "`sym` is not a symbol!"), w).
Proof. destruct v as [| | | | | |[[] ?]]; simpl; done. Qed.

(** On a symbol, the answer of [Symbol.isPrivate] does not depend on the
    symbol that was passed. *)
Lemma Symbol_isPrivate_ignores_argument id1 id2 w :
  Symbol_isPrivate (VSym id1) w = Symbol_isPrivate (VSym id2) w.
Proof. reflexivity. Qed.

(** ** [removePrivateKeys] *)

Lemma removePrivateKeys_loop_spec w fuel :
  ∀ i count (array : list value),
    count ≤ i → length array ≤ i + fuel →
    ∀ c a, removePrivateKeys_loop w fuel i count array = (c, a) →
    take c a = (take count array ++ List.filter (public w) (drop i array))%list.
Proof.
  induction fuel as [|fuel IH]; intros i count array Hc Hlen c a; simpl.
  - intros [= <- <-]. rewrite drop_ge by lia. simpl. by rewrite app_nil_r.
  - case_bool_decide as Hi.
    + destruct (lookup_lt_is_Some_2 array i Hi) as [x Hx]. rewrite Hx. simpl.
      rewrite (drop_S _ _ _ Hx). simpl.
      change (public w x) with (negb (isPrivate w x)).
      destruct (isPrivate w x); simpl; intros Heq.
      * apply IH in Heq; [done|lia..].
      * apply IH in Heq; [|lia|rewrite length_insert; lia].
        rewrite Heq. rewrite drop_insert_lt by lia.
        assert (Hcount : count < length array) by lia.
        rewrite (take_S_r (<[count:=x]> array) count x)
          by (by apply list_lookup_insert_eq).
        rewrite take_insert_ge by lia. by rewrite <- app_assoc.
    + intros [= <- <-]. rewrite drop_ge by lia. simpl. by rewrite app_nil_r.
Qed.

(** The in-place compaction is the filter that drops the private keys: the
    keys that stay keep their relative order. *)
Lemma removePrivateKeys_filter w (array : list value) :
  removePrivateKeys w array = List.filter (public w) array.
Proof.
  unfold removePrivateKeys.
  destruct (removePrivateKeys_loop w (length array) 0 0 array) as [c a] eqn:Heq.
  apply removePrivateKeys_loop_spec in Heq; [|lia..].
  by rewrite Heq.
Qed.

(** ** [Object.getOwnPropertyDescriptors] *)

Lemma filter_twice {A} (p q : A → bool) (l : list A) :
  List.filter p (List.filter q l) = List.filter (λ x, q x && p x) l.
Proof.
  induction l as [|x l IH]; simpl; [done|].
  destruct (q x); simpl; [destruct (p x)|]; by rewrite IH.
Qed.

Lemma delete_private_filter w keys :
  ∀ result,
    delete_private w keys result =
    List.filter (λ kd, negb (isPrivate w kd.1 && bool_decide (kd.1 ∈ keys))) result.
Proof.
  induction keys as [|key keys IH]; intros result; simpl.
  - rewrite <- (List.filter_ext (λ _, true)).
    + induction result as [|? ? IHr]; simpl; [done|by f_equal].
    + intros kd. by rewrite andb_false_r.
  - rewrite IH. destruct (isPrivate w key) eqn:Hkey.
    + unfold delete_key. rewrite filter_twice. apply List.filter_ext.
      intros [k d]; simpl. case_bool_decide as Hk.
      * subst k. rewrite Hkey, (bool_decide_eq_true_2 (key ∈ key :: keys)) by left.
        done.
      * simpl. f_equal. f_equal. apply bool_decide_ext.
        rewrite elem_of_cons. tauto.
    + apply List.filter_ext. intros [k d]; simpl.
      destruct (decide (k = key)) as [->|Hne].
      * by rewrite Hkey.
      * f_equal. f_equal. apply bool_decide_ext.
        rewrite elem_of_cons. tauto.
Qed.

Lemma delete_private_symbols w (t : table) :
  delete_private w (List.filter is_symbol t.*1) t =
  List.filter (λ kd, public w kd.1) t.
Proof.
  rewrite delete_private_filter. apply List.filter_ext_in.
  intros [k d] Hin; simpl. unfold public. f_equal.
  destruct (isPrivate w k) eqn:Hk; [|done]. simpl.
  apply bool_decide_eq_true. apply list_elem_of_In, List.filter_In.
  apply isPrivate_symbol in Hk as (id & -> & _). split; [|done].
  apply list_elem_of_In, list_elem_of_fmap. exists (VSym id, d). split; [done|].
  by apply list_elem_of_In.
Qed.

(** C10. The replaced reflection functions return what the native ones
    return, censored: [Reflect.ownKeys] and [Object.getOwnPropertySymbols]
    return the native array without its private keys, the other keys in
    their order; [Object.getOwnPropertyDescriptors] returns the native
    record without the entries whose key is private, every other entry
    (string key or symbol that is not private) as it was and where it was.
    A native exception is passed on. *)
Theorem reflection_censors_private_keys (v : value) (w : world) :
  Reflect_ownKeys v w
    = censored (λ w, List.filter (public w)) (ownKeys v w)
  ∧ Object_getOwnPropertySymbols v w
    = censored (λ w, List.filter (public w)) (getOwnPropertySymbols v w)
  ∧ Object_getOwnPropertyDescriptors v w
    = censored (λ w, List.filter (λ kd, public w kd.1))
        (getOwnPropertyDescriptors v w).
Proof.
  split; [|split].
  - unfold Reflect_ownKeys, bind. destruct (ownKeys v w) as [[ks|e] w']; simpl;
      [|done]. by rewrite removePrivateKeys_filter.
  - unfold Object_getOwnPropertySymbols, bind.
    destruct (getOwnPropertySymbols v w) as [[ks|e] w']; simpl; [|done].
    by rewrite removePrivateKeys_filter.
  - unfold Object_getOwnPropertyDescriptors, bind, getOwnPropertyDescriptors,
      getOwnPropertySymbols.
    destruct (ToObject_table w v) as [t|e] eqn:Ht; simpl; [|done].
    rewrite Ht. by rewrite delete_private_symbols.
Qed.

(** ** The handler filter *)

Section filter.

Variable hooks : method → list value → M value.

(** C1. An operation with a key on a filtered proxy. When the key is
    private the operation is the native one on the raw target, whatever
    the user's handler holds for it: no trap of the handler runs. When the
    key is not private and the handler has the trap, the operation is the
    trap, called on the handler with the target and the operands. When the
    key is not private and the handler has no trap, the operation is the
    native one on the raw target. *)
Theorem filter_bypasses_private_keys (target : value) (h : handler)
    (m : method) (operands : list value) (w : world) :
  key_parameterized m = true →
  (isPrivate w (key_of operands) = true →
     ∀ h' : handler,
       proxy_operation (Proxy hooks target h') m operands w
       = hooks m (target :: operands) w)
  ∧ (isPrivate w (key_of operands) = false →
     ∀ f, handler_trap h m = Callable f →
       proxy_operation (Proxy hooks target h) m operands w
       = f (handler_this h) (target :: operands) w)
  ∧ (isPrivate w (key_of operands) = false →
     handler_trap h m = Nullish →
       proxy_operation (Proxy hooks target h) m operands w
       = hooks m (target :: operands) w).
Proof.
  intros Hm. unfold proxy_operation, Proxy, key_of. simpl. rewrite Hm.
  unfold filterProxy.filter. simpl.
  split; [|split].
  - by intros -> h'.
  - intros -> f ->. reflexivity.
  - intros -> ->. reflexivity.
Qed.

(** What [Array.from] makes of the keys from position [k] on. *)
Lemma arrayFrom_loop_filterKey (keys : list value) (w : world) (fuel : nat) :
  ∀ k, k + fuel = length keys →
    arrayFrom_loop filterKey keys fuel k w =
    if forallb (public w) (drop k keys)
    then (Ret (drop k keys), w)
    else (Throw (Exn CTypeError
                   "`ownKeys` on proxy: trap returned a private symbol as a key"),
          w).
Proof.
  induction fuel as [|fuel IH]; intros k Hk; simpl.
  - rewrite drop_ge by lia. reflexivity.
  - assert (Hlt : k < length keys) by lia.
    destruct (lookup_lt_is_Some_2 keys k Hlt) as [x Hx].
    rewrite (drop_S _ _ _ Hx). simpl.
    unfold bind at 1. unfold filterKey at 1. rewrite Hx. simpl.
    unfold public at 1. destruct (isPrivate w x); simpl; [done|].
    unfold bind. rewrite IH by lia.
    by destruct (forallb (public w) (drop (S k) keys)).
Qed.

Lemma filter_all_public w (L : list value) :
  forallb (public w) L = true → List.filter (public w) L = L.
Proof.
  induction L as [|x L IH]; simpl; [done|].
  intros [-> HL]%andb_true_iff. by rewrite IH.
Qed.

(** C2, as the code has it. When the handler's [ownKeys] trap returns the
    key list [L], the [ownKeys] trap of the filtered handler throws its
    type error exactly when [L] holds a private key, own key of the target
    or not, and otherwise returns [L] without its private keys, the keys in
    their order, which is then [L] itself. So listing the keys of the proxy
    fails with that type error exactly when [L] holds a private key;
    otherwise the list goes to the native proxy's own checks, and the
    result is [L] unless they refuse it. The registry is consulted as the
    trap left it. *)
Theorem ownKeys_rejects_private_keys (target : value) (h : handler)
    (f : ownKeys_trap) (L : list value) (w w' : world) :
  handler_ownKeys h = Callable f →
  f (handler_this h) target w = (Ret L, w') →
  proxy_ownKeys_trap (Proxy hooks target h) w =
    (if existsb (isPrivate w') L
     then (Throw (Exn CTypeError
                    "`ownKeys` on proxy: trap returned a private symbol as a key"),
           w')
     else (Ret (List.filter (public w') L), w'))
  ∧ (existsb (isPrivate w') L = false → List.filter (public w') L = L)
  ∧ ∀ invariants,
      proxy_ownPropertyKeys invariants (Proxy hooks target h) w =
        if existsb (isPrivate w') L
        then (Throw (Exn CTypeError
                       "`ownKeys` on proxy: trap returned a private symbol as a key"),
              w')
        else match invariants w' target L with
             | Some e => (Throw e, w')
             | None => (Ret L, w')
             end.
Proof.
  intros Hf HL.
  assert (Hex : existsb (isPrivate w') L = negb (forallb (public w') L)).
  { clear. induction L as [|x L IH]; simpl; [done|]. rewrite IH. unfold public.
    by destruct (isPrivate w' x). }
  assert (Htrap : proxy_ownKeys_trap (Proxy hooks target h) w =
            (if existsb (isPrivate w') L
             then (Throw (Exn CTypeError
                     "`ownKeys` on proxy: trap returned a private symbol as a key"),
                   w')
             else (Ret (List.filter (public w') L), w'))).
  { unfold proxy_ownKeys_trap, Proxy. simpl. unfold filterProxy.ownKeys.
    rewrite Hf. simpl. unfold bind. rewrite HL. unfold arrayFrom.
    rewrite arrayFrom_loop_filterKey by lia. rewrite drop_0, Hex.
    destruct (forallb (public w') L) eqn:Hall; simpl; [|done].
    by rewrite filter_all_public. }
  assert (Hsame : existsb (isPrivate w') L = false →
                  List.filter (public w') L = L).
  { rewrite Hex. intros Hall%negb_false_iff. by apply filter_all_public. }
  split; [done|]. split; [done|].
  intros invariants. unfold proxy_ownPropertyKeys, bind. rewrite Htrap.
  destruct (existsb (isPrivate w') L); [done|]. by rewrite Hsame.
Qed.

End filter.

(** Scenarios A and B of the specification: through the proxy, the private
    key reads the raw target (here the stored 7, without the [get] trap),
    the key ["pub"] reads what the trap returns; [has], for which the
    handler has no trap, goes to the native function. *)
Lemma filter_bypasses_private_keys_witness :
  proxy_operation (Proxy example_hooks example_target example_handler)
    m_get [VSym 1%positive] example_world = (Ret (VNum 7), example_world)
  ∧ proxy_operation (Proxy example_hooks example_target example_handler)
      m_get [VStr "pub"] example_world = (Ret (VNum 1), example_world)
  ∧ proxy_operation (Proxy example_hooks example_target example_handler)
      m_has [VStr "pub"] example_world
    = example_hooks m_has [example_target; VStr "pub"] example_world.
Proof.
  split; [|split]; [| |
    destruct (filter_bypasses_private_keys example_hooks example_target
                example_handler m_has [VStr "pub"] example_world)
      as (_ & _ & Habsent); [reflexivity|];
    exact (Habsent eq_refl eq_refl)].
  - destruct (filter_bypasses_private_keys example_hooks example_target
                example_handler m_get [VSym 1%positive] example_world)
      as (Hprivate & _ & _); [reflexivity|].
    rewrite (Hprivate eq_refl example_handler). reflexivity.
  - destruct (filter_bypasses_private_keys example_hooks example_target
                example_handler m_get [VStr "pub"] example_world)
      as (_ & Hpublic & _); [reflexivity|].
    rewrite (Hpublic eq_refl _ eq_refl). reflexivity.
Defined.

(** Scenario C of the specification, as the code runs it: the trap returns
    ["pub"] and the private key, and listing the keys throws. *)
Lemma ownKeys_rejects_private_keys_witness :
  proxy_ownKeys_trap (Proxy example_hooks example_target example_handler)
    example_world
  = (Throw (Exn CTypeError
              "`ownKeys` on proxy: trap returned a private symbol as a key"),
     example_world).
Proof.
  destruct (ownKeys_rejects_private_keys example_hooks example_target
              example_handler (λ _ _, ret [VStr "pub"; VSym 1%positive])
              [VStr "pub"; VSym 1%positive] example_world example_world)
    as (Hthrows & _ & _); [reflexivity..|].
  exact Hthrows.
Defined.

(** C2 as the specification states it fails on the code. The only private
    key in the list the trap returns is an own key of the target, so the
    statement asks for the list without it, [["pub"]]; the filtered trap
    throws, and with it listing the keys of the proxy, whatever the native
    checks are. *)
Lemma ownKeys_claim_counterexample :
  ownKeys example_target example_world
    = (Ret [VSym 1%positive], example_world)
  ∧ call (handler_ownKeys example_handler) (handler_this example_handler)
      example_target example_world
    = (Ret [VStr "pub"; VSym 1%positive], example_world)
  ∧ List.filter (public example_world) [VStr "pub"; VSym 1%positive]
    = [VStr "pub"]
  ∧ proxy_ownKeys_trap (Proxy example_hooks example_target example_handler)
      example_world
    = (Throw (Exn CTypeError
                "`ownKeys` on proxy: trap returned a private symbol as a key"),
       example_world)
  ∧ proxy_ownKeys_trap (Proxy example_hooks example_target example_handler)
      example_world
    ≠ (Ret [VStr "pub"], example_world)
  ∧ ∀ invariants,
      proxy_ownPropertyKeys invariants
        (Proxy example_hooks example_target example_handler) example_world
      = (Throw (Exn CTypeError
                  "`ownKeys` on proxy: trap returned a private symbol as a key"),
         example_world)
      ∧ proxy_ownPropertyKeys invariants
          (Proxy example_hooks example_target example_handler) example_world
        ≠ (Ret [VStr "pub"], example_world).
Proof.
  split; [reflexivity|]. split; [reflexivity|]. split; [reflexivity|].
  split; [reflexivity|]. split; [discriminate|].
  intros invariants. split; [reflexivity|discriminate].
Qed.

(** C3, on the code. After [k = Symbol.private(name)] the registry holds
    [k], but [Symbol.isPrivate(k)] does not answer [true]: where no global
    is named [symbol], reading that identifier throws a reference error. *)
Theorem Symbol_isPrivate_reference_error (name : option string) (w : world) :
  globals w !! "symbol" = None →
  ∃ k w', Symbol_private name w = (Ret k, w')
          ∧ is_symbol k = true
          ∧ isPrivate w' k = true
          ∧ Symbol_isPrivate k w'
            = (Throw (Exn CReferenceError "symbol is not defined"), w').
Proof.
  intros Hg. destruct (Symbol_private_marks name w) as (id & w' & Hk & Hp & _ & _).
  exists (VSym id), w'. split; [done|]. split; [done|]. split; [done|].
  assert (Hg' : globals w' !! "symbol" = None).
  { unfold Symbol_private, bind in Hk. simpl in Hk. by injection Hk as _ <-. }
  unfold Symbol_isPrivate, bind, global_ref. simpl. by rewrite Hg'.
Qed.

Lemma Symbol_isPrivate_reference_error_witness :
  ∃ k w', Symbol_private (Some "x") example_world0 = (Ret k, w')
          ∧ is_symbol k = true
          ∧ isPrivate w' k = true
          ∧ Symbol_isPrivate k w'
            = (Throw (Exn CReferenceError "symbol is not defined"), w').
Proof.
  apply (Symbol_isPrivate_reference_error (Some "x") example_world0).
  reflexivity.
Defined.

End PolyfillFacts.

(** * Properties of commonjs-helpers.js *)

Module CommonJSFacts.
Import CommonJS.
Local Open Scope nat_scope.
Local Open Scope list_scope.

(** ** The exporter's setup *)

Section exporter.

Variable internalRefs : gmap string value.

Lemma find_app {A} (p : A → bool) (l1 l2 : list A) :
  List.find p (l1 ++ l2) =
  match List.find p l1 with
  | Some x => Some x
  | None => List.find p l2
  end.
Proof.
  induction l1 as [|x l1 IH]; simpl; [done|]. by destruct (p x).
Qed.

Lemma has_store_true key wm :
  as_WeakMap (internalRefs !! key) = Some wm → has_store internalRefs key = true.
Proof. intros H. unfold has_store. rewrite H. apply bool_decide_eq_true. eauto. Qed.

Lemma has_store_false key :
  as_WeakMap (internalRefs !! key) = None → has_store internalRefs key = false.
Proof.
  intros H. unfold has_store. rewrite H. apply bool_decide_eq_false. by intros [? ?].
Qed.

Lemma stored_empty : stored internalRefs ∅.
Proof. intros key wm. by rewrite lookup_empty. Qed.

Lemma forEach_addExported_spec (names : list string) :
  ∀ exported, stored internalRefs exported →
    match List.find (λ key, negb (has_store internalRefs key)) names with
    | Some key =>
        forEach_addExported internalRefs names exported = Throw (missing_key key)
    | None =>
        ∃ exported',
          forEach_addExported internalRefs names exported = Ret exported'
          ∧ stored internalRefs exported'
          ∧ dom exported' = dom exported ∪ list_to_set names
    end.
Proof.
  induction names as [|key names IH]; intros exported Hst; simpl.
  - exists exported. split; [done|]. split; [done|]. set_solver.
  - unfold addExported. case_bool_decide as Hin; simpl.
    + destruct Hin as [wm Hkey].
      rewrite (has_store_true key wm) by (by apply Hst). simpl.
      specialize (IH exported Hst).
      destruct (List.find _ names); [done|].
      destruct IH as (exported' & -> & Hst' & Hdom).
      exists exported'. split; [done|]. split; [done|].
      rewrite Hdom. apply elem_of_dom_2 in Hkey. set_solver.
    + destruct (as_WeakMap (internalRefs !! key)) as [wm|] eqn:Hwm.
      * rewrite (has_store_true key wm Hwm). simpl.
        assert (Hst2 : stored internalRefs (<[key:=wm]> exported)).
        { intros k wm'. destruct (decide (k = key)) as [->|Hne].
          - rewrite lookup_insert_eq. by intros [= <-].
          - rewrite lookup_insert_ne by done. apply Hst. }
        specialize (IH _ Hst2).
        destruct (List.find _ names); [done|].
        destruct IH as (exported' & -> & Hst' & Hdom).
        exists exported'. split; [done|]. split; [done|].
        rewrite Hdom, dom_insert_L. set_solver.
      * rewrite (has_store_false key Hwm). reflexivity.
Qed.

Lemma forEach_add_union (names : list string) :
  ∀ value : gset string, forEach_add names value = value ∪ list_to_set names.
Proof.
  induction names as [|key names IH]; intros value; simpl.
  - set_solver.
  - rewrite IH. set_solver.
Qed.

(** A run of the loop over [scoped] that completes. *)
Lemma forEach_scoped_ret resolve (fallback : gset string)
    (scoped : list (string * list string)) :
  ∀ resolved exported resolved' exported',
    stored internalRefs exported →
    forEach_scoped internalRefs resolve fallback scoped resolved exported
    = Ret (resolved', exported') →
    stored internalRefs exported'
    ∧ dom exported' = dom exported ∪ list_to_set (concat scoped.*2)
    ∧ ∀ consumer,
        resolved' !! consumer =
        match perConsumerKeys resolve scoped consumer with
        | Some names => Some (fallback ∪ list_to_set names)
        | None => resolved !! consumer
        end.
Proof.
  induction scoped as [|[key names] scoped IH];
    intros resolved exported resolved' exported' Hst.
  - simpl. intros [= <- <-]. split; [done|]. split; [set_solver|done].
  - rewrite fmap_cons. cbn [concat snd forEach_scoped perConsumerKeys].
    pose proof (forEach_addExported_spec names exported Hst) as Hn.
    destruct (List.find _ names) as [bad|]; [by rewrite Hn|].
    destruct Hn as (exported1 & -> & Hst1 & Hdom1).
    destruct (resolve key) as [filename|e]; [|done].
    intros Hrun. apply IH in Hrun as (Hst' & Hdom' & Hres); [|done].
    split; [done|]. split.
    + rewrite Hdom', Hdom1, list_to_set_app_L. set_solver.
    + intros consumer. rewrite Hres.
      destruct (perConsumerKeys resolve scoped consumer); [done|].
      destruct (decide (filename = consumer)) as [->|Hne].
      * by rewrite lookup_insert_eq, forEach_add_union.
      * by rewrite lookup_insert_ne.
Qed.

Lemma resolves_cons resolve key names scoped :
  resolves resolve ((key, names) :: scoped) →
  (∃ filename, resolve key = Ret filename) ∧ resolves resolve scoped.
Proof.
  intros Hr. split.
  - apply Hr. rewrite fmap_cons. left.
  - intros k Hk. apply Hr. rewrite fmap_cons. by right.
Qed.

(** Whether the loop over [scoped] completes. *)
Lemma forEach_scoped_spec resolve (fallback : gset string)
    (scoped : list (string * list string)) :
  ∀ resolved exported, stored internalRefs exported →
    match List.find (λ key, negb (has_store internalRefs key))
            (concat scoped.*2) with
    | Some key =>
        (∃ e, forEach_scoped internalRefs resolve fallback scoped resolved
                exported = Throw e)
        ∧ (resolves resolve scoped →
           forEach_scoped internalRefs resolve fallback scoped resolved exported
           = Throw (missing_key key))
    | None =>
        resolves resolve scoped →
        ∃ r, forEach_scoped internalRefs resolve fallback scoped resolved
               exported = Ret r
    end.
Proof.
  induction scoped as [|[key names] scoped IH]; intros resolved exported Hst.
  - simpl. eauto.
  - rewrite fmap_cons. cbn [concat snd forEach_scoped].
    rewrite find_app.
    pose proof (forEach_addExported_spec names exported Hst) as Hn.
    destruct (List.find _ names) as [bad|]; [rewrite Hn; by eauto|].
    destruct Hn as (exported1 & -> & Hst1 & Hdom1).
    destruct (resolve key) as [filename|e] eqn:Hkey.
    + specialize (IH (<[filename := forEach_add names fallback]> resolved)
                    exported1 Hst1).
      destruct (List.find _ (concat scoped.*2)).
      * destruct IH as [Hthrows Hmissing]. split; [done|].
        intros [_ Hr]%resolves_cons. by apply Hmissing.
      * intros [_ Hr]%resolves_cons. by apply IH.
    + destruct (List.find _ (concat scoped.*2)).
      * split; [by eauto|]. intros [[? Hr] _]%resolves_cons. congruence.
      * intros [[? Hr] _]%resolves_cons. congruence.
Qed.

(** What a completed setup leaves in the broker. *)
Lemma makeExportedKeys_broker resolve all scoped b :
  makeExportedKeys internalRefs resolve all scoped = Ret b →
  fallback b = list_to_set all
  ∧ stored internalRefs (exported b)
  ∧ dom (exported b) = list_to_set (referenced all scoped)
  ∧ ∀ consumer,
      default (fallback b) (resolved b !! consumer)
      = effective_allow_list resolve all scoped consumer.
Proof.
  unfold makeExportedKeys. intros Hb.
  pose proof (forEach_addExported_spec all ∅ stored_empty) as Hall.
  destruct (List.find _ all); [by rewrite Hall in Hb|].
  destruct Hall as (exported1 & Hrun1 & Hst1 & Hdom1). rewrite Hrun1 in Hb.
  destruct (forEach_scoped internalRefs resolve (list_to_set all) scoped ∅
              exported1) as [[resolved' exported']|e] eqn:Hrun2; [|done].
  apply forEach_scoped_ret in Hrun2 as (Hst' & Hdom' & Hres); [|done].
  injection Hb as <-. simpl.
  split; [done|]. split; [done|]. split.
  - unfold referenced. rewrite Hdom', Hdom1, list_to_set_app_L, dom_empty_L.
    set_solver.
  - intros consumer. rewrite Hres. unfold effective_allow_list.
    destruct (perConsumerKeys resolve scoped consumer); [done|].
    by rewrite lookup_empty.
Qed.

(** Whether the setup completes. *)
Lemma makeExportedKeys_spec resolve all scoped :
  match List.find (λ key, negb (has_store internalRefs key))
          (referenced all scoped) with
  | Some key =>
      (∃ e, makeExportedKeys internalRefs resolve all scoped = Throw e)
      ∧ (resolves resolve scoped →
         makeExportedKeys internalRefs resolve all scoped
         = Throw (missing_key key))
  | None =>
      resolves resolve scoped →
      ∃ b, makeExportedKeys internalRefs resolve all scoped = Ret b
  end.
Proof.
  unfold referenced, makeExportedKeys. rewrite find_app.
  pose proof (forEach_addExported_spec all ∅ stored_empty) as Hall.
  destruct (List.find _ all); [rewrite Hall; by eauto|].
  destruct Hall as (exported1 & -> & Hst1 & _).
  pose proof (forEach_scoped_spec resolve (list_to_set all) scoped ∅
                exported1 Hst1) as Hsc.
  destruct (List.find _ (concat scoped.*2)).
  - destruct Hsc as [[e He] Hmissing]. split.
    + exists e. by rewrite He.
    + intros Hr. by rewrite (Hmissing Hr).
  - intros Hr. destruct (Hsc Hr) as [[resolved' exported'] ->]. eauto.
Qed.

(** A setup that completes has had [req.resolve] answer for every
    consumer. *)
Lemma forEach_scoped_resolves resolve (fallback : gset string)
    (scoped : list (string * list string)) :
  ∀ resolved exported r,
    forEach_scoped internalRefs resolve fallback scoped resolved exported
    = Ret r →
    resolves resolve scoped.
Proof.
  induction scoped as [|[key names] scoped IH]; intros resolved exported r.
  - intros _ k Hk. by apply elem_of_nil in Hk.
  - cbn [forEach_scoped].
    destruct (forEach_addExported internalRefs names exported); [|done].
    destruct (resolve key) as [filename|e] eqn:Hkey; [|done].
    intros Hrun%IH k Hk. rewrite fmap_cons in Hk.
    apply elem_of_cons in Hk as [->|Hk]; [by eauto|by apply Hrun].
Qed.

(** The broker of a completed setup, entry by entry. *)
Lemma makeExportedKeys_returns resolve all scoped b :
  makeExportedKeys internalRefs resolve all scoped = Ret b →
  resolves resolve scoped
  ∧ fallback b = list_to_set all
  ∧ (∀ key, exported b !! key =
            if decide (key ∈ referenced all scoped)
            then as_WeakMap (internalRefs !! key) else None)
  ∧ (∀ consumer,
       resolved b !! consumer =
       match perConsumerKeys resolve scoped consumer with
       | Some names => Some (list_to_set all ∪ list_to_set names)
       | None => None
       end).
Proof.
  intros Hb.
  destruct (makeExportedKeys_broker _ _ _ _ Hb) as (Hfb & Hst & Hdom & _).
  unfold makeExportedKeys in Hb.
  destruct (forEach_addExported internalRefs all ∅) as [exported1|e] eqn:Hrun1;
    [|done].
  pose proof (forEach_addExported_spec all ∅ stored_empty) as Hall.
  destruct (List.find _ all); [congruence|].
  destruct Hall as (exported1' & Hrun1' & Hst1 & _).
  assert (exported1' = exported1) as -> by congruence.
  destruct (forEach_scoped internalRefs resolve (list_to_set all) scoped ∅
              exported1) as [[resolved' exported']|e] eqn:Hrun2; [|done].
  pose proof (forEach_scoped_resolves _ _ _ _ _ _ Hrun2) as Hresolves.
  apply forEach_scoped_ret in Hrun2 as (_ & _ & Hres); [|done].
  injection Hb as <-. simpl in *.
  split; [done|]. split; [done|]. split.
  - intros key. case_decide as Hin.
    + assert (Hkey : key ∈ dom exported') by (rewrite Hdom; set_solver).
      apply elem_of_dom in Hkey as [wm Hwm]. rewrite Hwm.
      symmetry. by apply Hst.
    + apply not_elem_of_dom. rewrite Hdom. set_solver.
  - intros consumer. rewrite Hres.
    by destruct (perConsumerKeys resolve scoped consumer).
Qed.

(** C8. The exporter's setup throws when a key name of the global list or
    of a consumer's list has no weak map in [internalRefs]: where
    [req.resolve] answers for the consumers, the error is
    ["Missing private key"] and names the first such key. When every
    referenced key name has a weak map, the setup completes exactly when
    [req.resolve] answers for every consumer, and then returns the factory
    of this broker: [fallback] holds the global list, [exported] maps
    exactly the referenced key names, each to the weak map [internalRefs]
    has for it, and [resolved] maps exactly the files the consumers resolve
    to, each to the global list together with the consumer's list. *)
Theorem exporter_setup_requires_stores (resolve : string → completion string)
    (all : list string) (scoped : list (string * list string)) :
  ((∃ key, key ∈ referenced all scoped
           ∧ as_WeakMap (internalRefs !! key) = None) →
   ∃ e, makeExportedKeys internalRefs resolve all scoped = Throw e)
  ∧ (resolves resolve scoped →
     match List.find (λ key, negb (has_store internalRefs key))
             (referenced all scoped) with
     | Some key =>
         key ∈ referenced all scoped
         ∧ as_WeakMap (internalRefs !! key) = None
         ∧ makeExportedKeys internalRefs resolve all scoped
           = Throw (Exn CError ("Missing private key: #" +:+ key))
     | None =>
         (∀ key, key ∈ referenced all scoped →
                 is_Some (as_WeakMap (internalRefs !! key)))
         ∧ ∃ b, makeExportedKeys internalRefs resolve all scoped = Ret b
                ∧ fallback b = list_to_set all
                ∧ (∀ key, exported b !! key =
                          if decide (key ∈ referenced all scoped)
                          then as_WeakMap (internalRefs !! key) else None)
                ∧ (∀ consumer,
                     resolved b !! consumer =
                     match perConsumerKeys resolve scoped consumer with
                     | Some names =>
                         Some (list_to_set all ∪ list_to_set names)
                     | None => None
                     end)
     end)
  ∧ ((∀ key, key ∈ referenced all scoped →
             is_Some (as_WeakMap (internalRefs !! key))) →
     ((∃ b, makeExportedKeys internalRefs resolve all scoped = Ret b)
      ↔ resolves resolve scoped)).
Proof.
  pose proof (makeExportedKeys_spec resolve all scoped) as Hspec.
  destruct (List.find _ (referenced all scoped)) as [key|] eqn:Hfind.
  - destruct Hspec as [Hthrows Hmissing].
    pose proof (List.find_some _ _ Hfind) as [Hin Hkey].
    apply list_elem_of_In in Hin.
    assert (Hnone : as_WeakMap (internalRefs !! key) = None).
    { unfold has_store in Hkey.
      apply negb_true_iff, bool_decide_eq_false in Hkey.
      destruct (as_WeakMap (internalRefs !! key)); [|done].
      exfalso. apply Hkey. eauto. }
    split; [done|]. split.
    + intros Hr. split; [done|]. split; [done|]. by apply Hmissing.
    + intros Hall. destruct (Hall key Hin) as [wm Hwm]. congruence.
  - assert (Hall : ∀ key, key ∈ referenced all scoped →
                          is_Some (as_WeakMap (internalRefs !! key))).
    { intros key Hin%list_elem_of_In.
      pose proof (List.find_none _ _ Hfind key Hin) as Hkey.
      unfold has_store in Hkey.
      by apply negb_false_iff, bool_decide_eq_true in Hkey. }
    split; [|split].
    + intros (key & Hin & Hnone). destruct (Hall key Hin) as [wm Hwm].
      congruence.
    + intros Hr. split; [done|]. destruct (Hspec Hr) as [b Hb].
      exists b. split; [done|].
      by destruct (makeExportedKeys_returns _ _ _ _ Hb) as (_ & ? & ? & ?).
    + intros _. split; [|done].
      intros [b Hb]. by destruct (makeExportedKeys_returns _ _ _ _ Hb).
Qed.

(** ** The broker factory *)

Lemma authorize_spec (allowed : gset string) (keys : list string) :
  ∀ refs,
    authorize allowed keys refs =
    match List.find (λ key, negb (bool_decide (key ∈ allowed))) keys with
    | Some key => inl key
    | None => inr (refs ∪ list_to_set keys)
    end.
Proof.
  induction keys as [|key keys IH]; intros refs; simpl.
  - f_equal. set_solver.
  - destruct (negb (bool_decide (key ∈ allowed))); [done|].
    rewrite IH. destruct (List.find _ keys); [done|]. f_equal. set_solver.
Qed.

(** The factory against the effective allow-list. *)
Lemma factory_spec resolve all scoped b filename TE keys :
  makeExportedKeys internalRefs resolve all scoped = Ret b →
  factory b filename TE keys =
    match List.find
            (λ key, negb (bool_decide
                            (key ∈ effective_allow_list resolve all scoped filename)))
            keys with
    | Some key => inl key
    | None => inr (Session (list_to_set keys) TE (exported b))
    end.
Proof.
  intros (_ & _ & _ & Hallowed)%makeExportedKeys_broker.
  unfold factory. rewrite Hallowed, authorize_spec.
  destruct (List.find _ keys); [done|]. do 2 f_equal. set_solver.
Qed.

(** C5. The factory of a completed setup checks the requested names, in
    their order, against the effective allow-list of the consumer (the
    global key list together with the consumer's own list; the global list
    alone when the consumer has none): it returns the first name that is
    not in it, and when there is none a session whose authorized names are
    exactly the requested ones. *)
Theorem factory_checks_effective_allow_list
    (resolve : string → completion string)
    (all : list string) (scoped : list (string * list string)) (b : broker)
    (filename : string) (TE : ctor) (keys : list string) :
  makeExportedKeys internalRefs resolve all scoped = Ret b →
  (∀ names, perConsumerKeys resolve scoped filename = Some names →
     effective_allow_list resolve all scoped filename
     = list_to_set all ∪ list_to_set names)
  ∧ (perConsumerKeys resolve scoped filename = None →
     effective_allow_list resolve all scoped filename = list_to_set all)
  ∧ factory b filename TE keys =
      match List.find
              (λ key, negb (bool_decide
                              (key ∈ effective_allow_list resolve all scoped
                                       filename)))
              keys with
      | Some key => inl key
      | None => inr (Session (list_to_set keys) TE (exported b))
      end.
Proof.
  intros Hb. unfold effective_allow_list at 1 2.
  split; [by intros names ->|]. split; [by intros ->|].
  by apply factory_spec.
Qed.

Lemma perConsumerKeys_listed resolve (scoped : list (string * list string))
    consumer names :
  perConsumerKeys resolve scoped consumer = Some names → names ∈ scoped.*2.
Proof.
  induction scoped as [|[key ns] scoped IH]; simpl; [done|].
  destruct (perConsumerKeys resolve scoped consumer).
  - intros [= <-]. right. by apply IH.
  - destruct (resolve key) as [filename|e]; [|done].
    destruct (decide (filename = consumer)); [|done].
    intros [= <-]. left.
Qed.

Lemma effective_allow_list_referenced resolve all scoped consumer key :
  key ∈ effective_allow_list resolve all scoped consumer →
  key ∈ referenced all scoped.
Proof.
  unfold effective_allow_list, referenced. rewrite elem_of_app.
  destruct (perConsumerKeys resolve scoped consumer) as [names|] eqn:Hc.
  - rewrite elem_of_union, !elem_of_list_to_set. intros [?|Hin]; [by left|].
    right. apply list_elem_of_In, List.in_concat. exists names.
    split; apply list_elem_of_In; [|done].
    by apply perConsumerKeys_listed in Hc.
  - rewrite elem_of_list_to_set. by left.
Qed.

(** A session of the factory is authorized for the requested names, and
    each of them has its weak map. *)
Lemma factory_session resolve all scoped b filename TE keys s :
  makeExportedKeys internalRefs resolve all scoped = Ret b →
  factory b filename TE keys = inr s →
  session_refs s = list_to_set keys
  ∧ session_TE s = TE
  ∧ ∀ K, K ∈ session_refs s →
         ∃ wm, session_exported s !! K = Some wm
               ∧ as_WeakMap (internalRefs !! K) = Some wm.
Proof.
  intros Hb Hs.
  rewrite (factory_spec _ _ _ _ _ _ _ Hb) in Hs.
  destruct (List.find _ keys) eqn:Hfind; [done|]. injection Hs as <-. simpl.
  split; [done|]. split; [done|].
  intros K HK%elem_of_list_to_set.
  pose proof (List.find_none _ _ Hfind K (proj1 (list_elem_of_In _ _) HK)) as HKa.
  apply negb_false_iff, bool_decide_eq_true in HKa.
  apply effective_allow_list_referenced in HKa.
  apply makeExportedKeys_broker in Hb as (_ & Hst & Hdom & _).
  assert (Hd : K ∈ dom (exported b)) by (rewrite Hdom; by apply elem_of_list_to_set).
  apply elem_of_dom in Hd as [wm Hwm]. exists wm. split; [done|]. by apply Hst.
Qed.

End exporter.

(** ** Sessions *)

Section session.

Variable describe : value → string.
Variable object_toString : ref → completion string.

(** The test [transact] makes on [O] singles out the references. *)
Lemma non_object_check (O : value) :
  is_nullish O
  || (negb (String.eqb (typeof O) "object")
      && negb (String.eqb (typeof O) "function"))
  = match O with VRef _ => false | _ => true end.
Proof. by destruct O as [| | | | | |[[] ?]]. Qed.

Lemma transact_unauthorized s O K h :
  K ∉ session_refs s → transact describe object_toString s O K h = (Throw (InvalidKey K), h).
Proof.
  intros HK. unfold transact. by rewrite (bool_decide_eq_false_2 _ HK).
Qed.

Lemma session_unauthorized s O K h :
  K ∉ session_refs s →
  session_get describe object_toString s O K h = (Throw (InvalidKey K), h)
  ∧ ∀ V, session_set describe object_toString s O K V h = (Throw (InvalidKey K), h).
Proof.
  intros HK. unfold session_get, session_set, bind.
  by rewrite (transact_unauthorized s O K h HK).
Qed.

(** C9. In a session's [get] and [set] the authorization check comes
    first: for a key name the session is not authorized for, the call
    throws the invalid-key error whatever the target is (object or not) and
    whatever the weak maps hold, and changes nothing. *)
Theorem authorization_checked_first (s : session) (O : value) (K : string)
    (h : weak_heap) :
  K ∉ session_refs s →
  session_get describe object_toString s O K h = (Throw (InvalidKey K), h)
  ∧ ∀ V, session_set describe object_toString s O K V h = (Throw (InvalidKey K), h).
Proof. apply session_unauthorized. Qed.

Lemma throw_described_run {A : Type} (error : string → exn) (O : value)
    (h : weak_heap) :
  @throw_described describe object_toString A error O h
  = (Throw (described_error describe object_toString error O), h).
Proof.
  unfold throw_described, described_error.
  by destruct (toString describe object_toString O).
Qed.

(** [get] and [set] with an authorized name whose weak map is [wm]. *)
Lemma session_authorized (s : session) (O : value) (K : string) (wm : positive)
    (h : weak_heap) :
  K ∈ session_refs s →
  session_exported s !! K = Some wm →
  match O with
  | VRef r =>
      match (h !!! wm) !! r with
      | Some v =>
          session_get describe object_toString s O K h = (Ret v, h)
          ∧ ∀ V, session_set describe object_toString s O K V h
                 = (Ret V, <[wm := <[r := V]> (h !!! wm)]> h)
      | None =>
          let e := described_error describe object_toString
                     (MissingField (session_TE s) K) O in
          session_get describe object_toString s O K h = (Throw e, h)
          ∧ ∀ V, session_set describe object_toString s O K V h = (Throw e, h)
      end
  | _ =>
      let e := TypeMismatch (session_TE s) K (toString_primitive describe O) in
      session_get describe object_toString s O K h = (Throw e, h)
      ∧ ∀ V, session_set describe object_toString s O K V h = (Throw e, h)
  end.
Proof.
  intros HK Hexp.
  unfold session_get, session_set, bind, transact.
  rewrite (bool_decide_eq_true_2 _ HK). simpl.
  rewrite non_object_check, Hexp.
  destruct O as [| | | | | |r]; try done.
  unfold bind, weakHas, weakGet, weakSet. simpl.
  destruct ((h !!! wm) !! r) as [v|] eqn:Hv.
  - rewrite (bool_decide_eq_true_2 (is_Some (Some v))) by eauto.
    unfold ret. simpl. by rewrite Hv.
  - rewrite (bool_decide_eq_false_2 (is_Some None)) by (by intros [? ?]).
    simpl. by rewrite throw_described_run.
Qed.

(** C4, as the code has it. A session the factory returned, authorized
    for the set [S] of requested names. [get] and [set] with a key name
    outside [S] throw the invalid-key error. With a key name in [S], whose
    weak map is the one [internalRefs] holds for it: they throw the
    type-mismatch error when the target is not an object or function; when
    the weak map has no entry for the target they throw the missing-field
    error, provided [String(target)], which the message is built with,
    returns; otherwise [get] returns the stored value, and [set] stores the
    value in the entry and returns it. *)
Theorem session_gating (internalRefs : gmap string value)
    (resolve : string → completion string) (all : list string)
    (scoped : list (string * list string)) (b : broker) (filename : string)
    (TE : ctor) (keys : list string) (s : session) (O : value) (K : string)
    (h : weak_heap) :
  makeExportedKeys internalRefs resolve all scoped = Ret b →
  factory b filename TE keys = inr s →
  let S : gset string := list_to_set keys in
  if decide (K ∈ S) then
    ∃ wm, as_WeakMap (internalRefs !! K) = Some wm ∧
      match O with
      | VRef r =>
          match (h !!! wm) !! r with
          | Some v =>
              session_get describe object_toString s O K h = (Ret v, h)
              ∧ ∀ V, session_set describe object_toString s O K V h
                     = (Ret V, <[wm := <[r := V]> (h !!! wm)]> h)
          | None =>
              ∀ text, toString describe object_toString O = Ret text →
                session_get describe object_toString s O K h
                = (Throw (MissingField TE K text), h)
                ∧ ∀ V, session_set describe object_toString s O K V h
                       = (Throw (MissingField TE K text), h)
          end
      | _ =>
          session_get describe object_toString s O K h
          = (Throw (TypeMismatch TE K (toString_primitive describe O)), h)
          ∧ ∀ V, session_set describe object_toString s O K V h
                 = (Throw (TypeMismatch TE K (toString_primitive describe O)), h)
      end
  else
    session_get describe object_toString s O K h = (Throw (InvalidKey K), h)
    ∧ ∀ V, session_set describe object_toString s O K V h
           = (Throw (InvalidKey K), h).
Proof.
  intros Hb Hs S.
  destruct (factory_session internalRefs _ _ _ _ _ _ _ _ Hb Hs)
    as (Hrefs & HTE & Hstores).
  destruct (decide (K ∈ S)) as [HK|HK].
  - subst S. rewrite <- Hrefs in HK.
    destruct (Hstores K HK) as (wm & Hexp & Hwm). exists wm. split; [done|].
    pose proof (session_authorized s O K wm h HK Hexp) as Hrun.
    rewrite HTE in Hrun.
    destruct O as [| | | | | |r]; try done.
    destruct ((h !!! wm) !! r) as [v|]; [done|].
    intros text Htext. unfold described_error in Hrun. by rewrite Htext in Hrun.
  - apply session_unauthorized. by rewrite Hrefs.
Qed.

(** ** The importer binding *)

(** Before any [init], [get] and [set] throw a reference error that names
    the requested key and the source. *)
Lemma unbound_get_set source TE RE O key h :
  get describe object_toString (getExportedKeys source TE RE) O key h
  = (Throw (not_referenced RE key source), h)
  ∧ ∀ V, set describe object_toString (getExportedKeys source TE RE) O key V h
         = (Throw (not_referenced RE key source), h).
Proof. done. Qed.

(** While [result] holds a string, [get] and [set] throw a reference error
    that names the requested key and that string. *)
Lemma poisoned_get_set imp name O key h :
  result imp = inl name →
  get describe object_toString imp O key h = (Throw (not_referenced (importer_RE imp) key name), h)
  ∧ ∀ V, set describe object_toString imp O key V h
         = (Throw (not_referenced (importer_RE imp) key name), h).
Proof. unfold get, set. by intros ->. Qed.

(** An [init] whose hook answers with a key name leaves that name, and
    nothing of the source, in [result]. *)
Lemma init_unauthorized imp (f : hook) filename keys name :
  f filename (importer_TE imp) keys = Ret (inl name) →
  init imp (Exports (Some f)) filename keys
  = (Throw (not_referenced (importer_RE imp) (default "undefined" (keys !! 0)) name),
     Importer (importer_TE imp) (importer_RE imp) (inl name)).
Proof. unfold init. by intros ->. Qed.

(** C6, as the code has it. [init] has no terminal state: it asks the
    module's hook on every call. A Poisoned binding stays Poisoned unless
    the module has a hook and the hook answers this call with a session; a
    Bound binding stays Bound unless the module has a hook and the hook
    answers this call with a key name. *)
Theorem init_state_follows_hook (imp : importer) (modl : module_instance)
    (filename : string) (keys : list string) :
  (poisoned imp →
   (∀ (f : hook) s, modl = Exports (Some f) →
                    f filename (importer_TE imp) keys ≠ Ret (inr s)) →
   poisoned (init imp modl filename keys).2)
  ∧ (bound imp →
     (∀ (f : hook) name, modl = Exports (Some f) →
                         f filename (importer_TE imp) keys ≠ Ret (inl name)) →
     bound (init imp modl filename keys).2).
Proof.
  unfold poisoned, bound, init.
  split; intros [x Hx] Hhook; destruct modl as [| |[f|]]; simpl; eauto.
  - destruct (f filename (importer_TE imp) keys) as [[name|s]|e] eqn:Hf;
      simpl; eauto.
    by destruct (Hhook f s eq_refl).
  - rewrite Hx. simpl. eauto.
  - destruct (f filename (importer_TE imp) keys) as [[name|s]|e] eqn:Hf;
      simpl; eauto.
    by destruct (Hhook f name eq_refl).
  - rewrite Hx. simpl. eauto.
Qed.

End session.

(** ** The example exporter and importer *)

Lemma example_setup :
  makeExportedKeys example_internalRefs example_resolve example_all
    example_scoped = Ret example_broker.
Proof. vm_compute. reflexivity. Qed.

Lemma example_factory :
  factory example_broker "/app/importer.js" CTypeError ["elem"]
  = inr example_session.
Proof. vm_compute. reflexivity. Qed.

(** The setup of the example completes and returns the factory of a
    broker that holds the weak map of ["secret"], no entry for ["x"], and
    the list of the friend module; without a weak map for ["secret"], which
    the friend module is to get, it throws. *)
Lemma exporter_setup_requires_stores_witness :
  (∃ b, makeExportedKeys example_internalRefs example_resolve example_all
          example_scoped = Ret b
        ∧ exported b !! "secret" = Some 2%positive
        ∧ exported b !! "x" = None
        ∧ resolved b !! "/app/friend.js"
          = Some (list_to_set ["elem"] ∪ list_to_set ["secret"])
        ∧ resolved b !! "/app/importer.js" = None)
  ∧ makeExportedKeys (delete "secret" example_internalRefs) example_resolve
      example_all example_scoped
    = Throw (Exn CError "Missing private key: #secret").
Proof.
  assert (Hresolves : resolves example_resolve example_scoped)
    by (intros key _; eexists; reflexivity).
  split.
  - destruct (exporter_setup_requires_stores example_internalRefs
                example_resolve example_all example_scoped)
      as (_ & Hsetup & _).
    specialize (Hsetup Hresolves).
    match type of Hsetup with
    | match ?first with _ => _ end =>
        assert (Hfirst : first = None) by (vm_compute; reflexivity);
        rewrite Hfirst in Hsetup
    end.
    destruct Hsetup as (_ & b & Hb & _ & Hexported & Hresolved).
    exists b. split; [exact Hb|].
    split; [by rewrite Hexported|]. split; [by rewrite Hexported|].
    split; by rewrite Hresolved.
  - destruct (exporter_setup_requires_stores
                (delete "secret" example_internalRefs)
                example_resolve example_all example_scoped)
      as (_ & Hsetup & _).
    specialize (Hsetup Hresolves).
    match type of Hsetup with
    | match ?first with _ => _ end =>
        assert (Hfirst : first = Some "secret") by (vm_compute; reflexivity);
        rewrite Hfirst in Hsetup
    end.
    exact (proj2 (proj2 Hsetup)).
Defined.

(** Every key name the example refers to has a weak map, and yet the setup
    throws, and returns no factory, where the file of the friend module
    cannot be resolved. *)
Lemma exporter_setup_claim_counterexample :
  forallb (has_store example_internalRefs)
    (referenced example_all example_scoped) = true
  ∧ makeExportedKeys example_internalRefs example_resolve_fails example_all
      example_scoped
    = Throw (Exn CError "Cannot find module 'friend.js'").
Proof. split; vm_compute; reflexivity. Qed.

(** Scenario D of the specification: asked for ["elem"] and ["x"], the
    factory returns ["x"]; the friend module may ask for ["secret"], other
    modules may not. *)
Lemma factory_checks_effective_allow_list_witness :
  factory example_broker "/app/importer.js" CTypeError ["elem"; "x"] = inl "x"
  ∧ factory example_broker "/app/importer.js" CTypeError ["elem"; "secret"]
    = inl "secret"
  ∧ factory example_broker "/app/friend.js" CTypeError ["elem"; "secret"]
    = inr (Session {[ "elem"; "secret" ]} CTypeError (exported example_broker)).
Proof.
  split; [|split].
  - destruct (factory_checks_effective_allow_list example_internalRefs
                example_resolve example_all example_scoped example_broker
                "/app/importer.js" CTypeError ["elem"; "x"])
      as (_ & _ & ->); [vm_compute; reflexivity|].
    vm_compute. reflexivity.
  - destruct (factory_checks_effective_allow_list example_internalRefs
                example_resolve example_all example_scoped example_broker
                "/app/importer.js" CTypeError ["elem"; "secret"])
      as (_ & _ & ->); [vm_compute; reflexivity|].
    vm_compute. reflexivity.
  - destruct (factory_checks_effective_allow_list example_internalRefs
                example_resolve example_all example_scoped example_broker
                "/app/friend.js" CTypeError ["elem"; "secret"])
      as (_ & _ & ->); [vm_compute; reflexivity|].
    vm_compute. reflexivity.
Defined.

(** The session of the example reads the stored 5 and overwrites it; on
    an object that has no field it throws the missing-field error. *)
Lemma session_gating_witness :
  session_get example_describe example_object_toString example_session
    example_object "elem" example_heap = (Ret (VNum 5), example_heap)
  ∧ session_set example_describe example_object_toString example_session
      example_object "elem" (VNum 6) example_heap
    = (Ret (VNum 6),
       {[ 1%positive := {[ (KObject, 7%positive) := VNum 6 ]} ]})
  ∧ session_get example_describe example_object_toString example_session
      (VRef (KObject, 8%positive)) "elem" example_heap
    = (Throw (Exn CTypeError "Private key #elem does not exist on [object Object]!"),
       example_heap).
Proof.
  assert (Hlisted : "elem" ∈ (list_to_set ["elem"] : gset string))
    by set_solver.
  split; [|split].
  - pose proof (session_gating example_describe example_object_toString
                  example_internalRefs example_resolve example_all
                  example_scoped example_broker "/app/importer.js" CTypeError
                  ["elem"] example_session example_object "elem" example_heap
                  ltac:(vm_compute; reflexivity) ltac:(vm_compute; reflexivity))
      as Hsession.
    cbv zeta in Hsession. case_decide; [|done].
    destruct Hsession as (wm & Hwm & Hsession).
    vm_compute in Hwm. injection Hwm as <-.
    unfold example_object in Hsession at 1. cbv iota in Hsession.
    match type of Hsession with
    | match ?entry with _ => _ end =>
        assert (Hentry : entry = Some (VNum 5)) by (vm_compute; reflexivity);
        rewrite Hentry in Hsession
    end.
    exact (proj1 Hsession).
  - pose proof (session_gating example_describe example_object_toString
                  example_internalRefs example_resolve example_all
                  example_scoped example_broker "/app/importer.js" CTypeError
                  ["elem"] example_session example_object "elem" example_heap
                  ltac:(vm_compute; reflexivity) ltac:(vm_compute; reflexivity))
      as Hsession.
    cbv zeta in Hsession. case_decide; [|done].
    destruct Hsession as (wm & Hwm & Hsession).
    vm_compute in Hwm. injection Hwm as <-.
    unfold example_object in Hsession at 1. cbv iota in Hsession.
    match type of Hsession with
    | match ?entry with _ => _ end =>
        assert (Hentry : entry = Some (VNum 5)) by (vm_compute; reflexivity);
        rewrite Hentry in Hsession
    end.
    destruct Hsession as [_ Hset]. rewrite (Hset (VNum 6)).
    vm_compute. reflexivity.
  - pose proof (session_gating example_describe example_object_toString
                  example_internalRefs example_resolve example_all
                  example_scoped example_broker "/app/importer.js" CTypeError
                  ["elem"] example_session (VRef (KObject, 8%positive)) "elem"
                  example_heap
                  ltac:(vm_compute; reflexivity) ltac:(vm_compute; reflexivity))
      as Hsession.
    cbv zeta in Hsession. case_decide; [|done].
    destruct Hsession as (wm & Hwm & Hsession).
    vm_compute in Hwm. injection Hwm as <-.
    match type of Hsession with
    | match ?entry with _ => _ end =>
        assert (Hentry : entry = None) by (vm_compute; reflexivity);
        rewrite Hentry in Hsession
    end.
    exact (proj1 (Hsession "[object Object]" eq_refl)).
Defined.

(** C4 as the specification states it fails on the code. The session is
    the one of the example, authorized for ["elem"]; the target is an
    object that has no field and no [toString], like [Object.create(null)].
    The statement asks for the missing-field error; building its message
    throws first, and the call fails with the host's own type error. *)
Lemma session_gating_claim_counterexample :
  makeExportedKeys example_internalRefs example_resolve example_all
    example_scoped = Ret example_broker
  ∧ factory example_broker "/app/importer.js" CTypeError ["elem"]
    = inr example_session
  ∧ "elem" ∈ session_refs example_session
  ∧ (example_heap !!! 1%positive) !! (KObject, 8%positive) = None
  ∧ session_get example_describe bare_object_toString example_session
      (VRef (KObject, 8%positive)) "elem" example_heap
    = (Throw (Exn CTypeError "Cannot convert object to primitive value"),
       example_heap)
  ∧ ∀ text,
      session_get example_describe bare_object_toString example_session
        (VRef (KObject, 8%positive)) "elem" example_heap
      ≠ (Throw (MissingField CTypeError "elem" text), example_heap).
Proof.
  split; [vm_compute; reflexivity|]. split; [vm_compute; reflexivity|].
  split; [set_solver|]. split; [vm_compute; reflexivity|].
  assert (Hrun : session_get example_describe bare_object_toString
                   example_session (VRef (KObject, 8%positive)) "elem"
                   example_heap
                 = (Throw (Exn CTypeError
                             "Cannot convert object to primitive value"),
                    example_heap))
    by (vm_compute; reflexivity).
  split; [exact Hrun|].
  intros text. rewrite Hrun. unfold MissingField. simpl. discriminate.
Qed.

(** A name the session was not asked for is refused before the target is
    looked at: here the target is a number. *)
Lemma authorization_checked_first_witness :
  session_get example_describe example_object_toString example_session (VNum 3) "secret" example_heap
  = (Throw (InvalidKey "secret"), example_heap).
Proof.
  apply (authorization_checked_first example_describe example_object_toString example_session
           (VNum 3) "secret" example_heap).
  vm_compute. discriminate.
Defined.

(** A failed [init] repeated with the same request leaves the binding
    Poisoned, and a Bound binding stays Bound when it is bound again. *)
Lemma init_state_follows_hook_witness :
  poisoned (init example_poisoned example_module "/app/importer.js"
              ["elem"; "foo"]).2
  ∧ bound (init example_bound example_module "/app/importer.js" ["elem"]).2.
Proof.
  split.
  - apply (init_state_follows_hook example_poisoned example_module
             "/app/importer.js" ["elem"; "foo"]).
    + exists "foo". reflexivity.
    + intros f s [= <-]. vm_compute. discriminate.
  - apply (init_state_follows_hook example_bound example_module
             "/app/importer.js" ["elem"]).
    + exists example_session. vm_compute. reflexivity.
    + intros f name [= <-]. vm_compute. discriminate.
Defined.

(** C6 as the specification states it fails on the code. The binding
    [example_poisoned] was poisoned by an [init] that asked for ["foo"]; a
    further [init] that asks for ["elem"] only binds it. The binding
    [example_bound] is bound; a further [init] that asks for ["foo"]
    poisons it. *)
Lemma init_terminal_claim_counterexample :
  result example_poisoned = inl "foo"
  ∧ result (init example_poisoned example_module "/app/importer.js" ["elem"]).2
    = inr example_session
  ∧ ¬ poisoned (init example_poisoned example_module "/app/importer.js"
                  ["elem"]).2
  ∧ result example_bound = inr example_session
  ∧ result (init example_bound example_module "/app/importer.js" ["foo"]).2
    = inl "foo"
  ∧ ¬ bound (init example_bound example_module "/app/importer.js" ["foo"]).2.
Proof.
  assert (H1 : result (init example_poisoned example_module "/app/importer.js"
                         ["elem"]).2 = inr example_session)
    by (vm_compute; reflexivity).
  assert (H2 : result (init example_bound example_module "/app/importer.js"
                         ["foo"]).2 = inl "foo")
    by (vm_compute; reflexivity).
  split; [vm_compute; reflexivity|]. split; [exact H1|]. split.
  { intros [name Hname]. rewrite H1 in Hname. discriminate. }
  split; [vm_compute; reflexivity|]. split; [exact H2|].
  intros [s Hs]. rewrite H2 in Hs. discriminate.
Qed.

(** C7, on the code. The importer of ["./exporter.js"] asks for ["elem"]
    and ["foo"]; the exporter does not export ["foo"] and [init] throws.
    From then on [get] and [set] throw a reference error whose message has
    ["foo"] where the source belongs: it does not cite ["./exporter.js"]. *)
Theorem poisoned_binding_loses_source :
  init example_importer example_module "/app/importer.js" ["elem"; "foo"]
  = (Throw (Exn CReferenceError
              "Private key #elem could not be referenced from 'foo'!"),
     example_poisoned)
  ∧ get example_describe example_object_toString example_poisoned example_object "elem" example_heap
    = (Throw (Exn CReferenceError
                "Private key #elem could not be referenced from 'foo'!"),
       example_heap)
  ∧ set example_describe example_object_toString example_poisoned example_object "elem" (VNum 6)
      example_heap
    = (Throw (Exn CReferenceError
                "Private key #elem could not be referenced from 'foo'!"),
       example_heap)
  ∧ contains "foo" "Private key #elem could not be referenced from 'foo'!"
    = true
  ∧ contains "./exporter.js"
      "Private key #elem could not be referenced from 'foo'!" = false.
Proof. repeat split; vm_compute; reflexivity. Qed.

End CommonJSFacts.

(** * Further properties of polyfill.js *)

Module PolyfillMore.
Import Polyfill PolyfillFacts.
Local Open Scope nat_scope.
Local Open Scope list_scope.

(** ** The registry and [Symbol.private] *)

(** X1. [Symbol.private] returns a symbol and registers exactly that
    symbol: afterwards a value is private when it is the new key or was
    private before, and nothing else of the world changes. Where the
    registry only holds symbols the host has already handed out, the new
    key was not private before, and the registry still only holds symbols
    already handed out. *)
Theorem Symbol_private_registers_one_key (name : option string) (w : world) :
  ∃ id w',
    Symbol_private name w = (Ret (VSym id), w')
    ∧ (∀ v, isPrivate w' v = true ↔ v = VSym id ∨ isPrivate w v = true)
    ∧ globals w' = globals w ∧ heap w' = heap w
    ∧ (registry_fresh w →
       isPrivate w (VSym id) = false ∧ registry_fresh w').
Proof.
  exists (next_sym w). eexists. split; [reflexivity|]. simpl.
  split; [|split; [done|split; [done|]]].
  - intros v. destruct v; simpl;
      try (split; [discriminate|intros [?|?]; discriminate]).
    rewrite !bool_decide_eq_true, elem_of_union, elem_of_singleton.
    split; [intros [->|?]; auto|intros [[= ->]|?]; auto].
  - intros Hfresh. split.
    + apply bool_decide_eq_false. intros Hin%Hfresh. lia.
    + intros id. simpl. rewrite elem_of_union, elem_of_singleton.
      intros [->|Hin%Hfresh]; lia.
Qed.

Lemma Symbol_private_registers_one_key_witness :
  isPrivate example_world0 (VSym 1%positive) = false
  ∧ ∃ id w',
      Symbol_private (Some "x") example_world0 = (Ret (VSym id), w')
      ∧ isPrivate w' (VSym id) = true.
Proof.
  destruct (Symbol_private_registers_one_key (Some "x") example_world0)
    as (id & w' & Hrun & Hmark & _ & _ & Hfresh).
  split.
  - injection Hrun as <- _. apply Hfresh. intros i Hi. vm_compute in Hi.
    discriminate.
  - exists id, w'. split; [done|]. apply Hmark. by left.
Defined.

(** ** The filtered handler *)

Section filtered.

Variable hooks : method → list value → M value.

Lemma existsb_isPrivate w (L : list value) k :
  k ∈ L → isPrivate w k = true → existsb (isPrivate w) L = true.
Proof.
  intros Hin Hk. apply List.existsb_exists. exists k. split; [|done].
  by apply list_elem_of_In.
Qed.

Lemma forallb_public_existsb w (L : list value) :
  forallb (public w) L = negb (existsb (isPrivate w) L).
Proof.
  induction L as [|x L IH]; simpl; [done|]. rewrite IH. unfold public.
  by destruct (isPrivate w x).
Qed.

(** X2. Apart from private keys the filter is transparent. For a trap
    that takes no key ([apply], [construct], [isExtensible],
    [preventExtensions], [getPrototypeOf], [setPrototypeOf]), whatever its
    arguments are, and for a trap that takes a key when the key is not
    private, an operation on the filtered proxy is what the native proxy
    makes of the user's own handler: the trap called on the handler, the
    native operation when the handler holds [undefined] or [null] there,
    and a type error when it holds something that is not a function. *)
Theorem filtered_handler_transparent (target : value) (h : handler)
    (m : method) (operands : list value) (w : world) :
  (key_parameterized m = true → isPrivate w (key_of operands) = false) →
  proxy_operation (Proxy hooks target h) m operands w
  = unfiltered_operation hooks h m (target :: operands) w.
Proof.
  intros Hkey. unfold proxy_operation, Proxy, unfiltered_operation. simpl.
  destruct (key_parameterized m) eqn:Hm.
  - unfold filterProxy.filter. simpl.
    unfold key_of in Hkey. rewrite (Hkey eq_refl). simpl.
    by destruct (handler_trap h m).
  - unfold filterProxy.forward. by destruct (handler_trap h m).
Qed.

(** X3. A key made by [Symbol.private] is out of reach of every handler
    from then on: in any later world, in which the registry has only grown,
    an operation with that key on a proxy over any handler is the native
    operation on the raw target. *)
Theorem created_key_bypasses_every_handler (name : option string)
    (w w1 w2 : world) (k target : value) (h : handler) (m : method)
    (rest : list value) :
  Symbol_private name w = (Ret k, w1) →
  data w1 ⊆ data w2 →
  key_parameterized m = true →
  proxy_operation (Proxy hooks target h) m (k :: rest) w2
  = hooks m (target :: k :: rest) w2.
Proof.
  intros Hk Hgrow Hm.
  destruct (Symbol_private_marks name w) as (id & w' & Hrun & Hp & _ & _).
  rewrite Hrun in Hk. injection Hk as <- <-.
  apply isPrivate_symbol in Hp as (id' & [= <-] & Hin).
  unfold proxy_operation, Proxy. simpl. rewrite Hm.
  unfold filterProxy.filter. simpl.
  rewrite (bool_decide_eq_true_2 (id ∈ data w2)) by (by apply Hgrow).
  reflexivity.
Qed.

(** X4. For a handler without an [ownKeys] trap, the filtered trap returns
    the own keys of the target as the native function lists them, private
    keys included, and so does listing the keys of the proxy, the native
    checks accepting the target's own list. A handler whose trap returns
    that same native list is not equivalent: as soon as the target has a
    private own key, the filtered trap throws, and with it listing the keys
    of the proxy, whatever the native checks are. *)
Theorem ownKeys_default_differs_from_transparent_trap (r : ref) (h : handler)
    (this k : value) (w : world) :
  handler_ownKeys h = Nullish →
  k ∈ (own_table w r).*1 →
  isPrivate w k = true →
  proxy_ownKeys_trap (Proxy hooks (VRef r) h) w = (Ret (own_table w r).*1, w)
  ∧ proxy_ownKeys_trap (Proxy hooks (VRef r) (transparent_ownKeys_handler this)) w
    = (Throw (Exn CTypeError
                "`ownKeys` on proxy: trap returned a private symbol as a key"),
       w)
  ∧ ∀ invariants,
      (invariants w (VRef r) (own_table w r).*1 = None →
       proxy_ownPropertyKeys invariants (Proxy hooks (VRef r) h) w
       = (Ret (own_table w r).*1, w))
      ∧ proxy_ownPropertyKeys invariants
          (Proxy hooks (VRef r) (transparent_ownKeys_handler this)) w
        = (Throw (Exn CTypeError
                    "`ownKeys` on proxy: trap returned a private symbol as a key"),
           w).
Proof.
  intros Hh Hin Hk.
  assert (Hdefault : proxy_ownKeys_trap (Proxy hooks (VRef r) h) w
                     = (Ret (own_table w r).*1, w)).
  { unfold proxy_ownKeys_trap, Proxy. simpl.
    unfold filterProxy.ownKeys. by rewrite Hh. }
  assert (Htrap : proxy_ownKeys_trap
                    (Proxy hooks (VRef r) (transparent_ownKeys_handler this)) w
                  = (Throw (Exn CTypeError
                       "`ownKeys` on proxy: trap returned a private symbol as a key"),
                     w)).
  { unfold proxy_ownKeys_trap, Proxy. simpl.
    unfold filterProxy.ownKeys. simpl. unfold bind. simpl.
    unfold arrayFrom. rewrite arrayFrom_loop_filterKey by lia.
    rewrite drop_0, forallb_public_existsb.
    by rewrite (existsb_isPrivate w _ k Hin Hk). }
  split; [done|]. split; [done|].
  intros invariants. unfold proxy_ownPropertyKeys, bind. split.
  - intros Haccepts. rewrite Hdefault. simpl. by rewrite Haccepts.
  - by rewrite Htrap.
Qed.

End filtered.

Lemma filtered_handler_transparent_witness :
  proxy_operation (Proxy example_hooks example_target example_handler)
    m_apply [VSym 1%positive] example_world
  = example_hooks m_apply [example_target; VSym 1%positive] example_world
  ∧ proxy_operation (Proxy example_hooks example_target example_handler)
      m_get [VStr "pub"] example_world
    = (Ret (VNum 1), example_world).
Proof.
  split.
  - apply (filtered_handler_transparent example_hooks example_target
             example_handler m_apply [VSym 1%positive] example_world).
    discriminate.
  - apply (filtered_handler_transparent example_hooks example_target
             example_handler m_get [VStr "pub"] example_world).
    reflexivity.
Defined.

Lemma created_key_bypasses_every_handler_witness :
  proxy_operation (Proxy example_hooks example_target example_handler)
    m_get [VSym 1%positive] (Symbol_private (Some "x") example_world0).2
  = example_hooks m_get [example_target; VSym 1%positive]
      (Symbol_private (Some "x") example_world0).2.
Proof.
  apply (created_key_bypasses_every_handler example_hooks (Some "x")
           example_world0 (Symbol_private (Some "x") example_world0).2);
    reflexivity.
Defined.

Lemma ownKeys_default_differs_from_transparent_trap_witness :
  proxy_ownKeys_trap
    (Proxy example_hooks example_target
       (Handler example_handler_object (λ _, Nullish) Nullish)) example_world
  = (Ret [VSym 1%positive], example_world)
  ∧ proxy_ownKeys_trap
      (Proxy example_hooks example_target
         (transparent_ownKeys_handler example_handler_object)) example_world
    = (Throw (Exn CTypeError
                "`ownKeys` on proxy: trap returned a private symbol as a key"),
       example_world).
Proof.
  destruct (ownKeys_default_differs_from_transparent_trap example_hooks
              (KObject, 1%positive)
              (Handler example_handler_object (λ _, Nullish) Nullish)
              example_handler_object (VSym 1%positive) example_world)
    as (Hdefault & Htrap & _).
  - reflexivity.
  - vm_compute. left.
  - reflexivity.
  - split; [exact Hdefault|exact Htrap].
Defined.

(** ** The censoring functions *)

Lemma filter_length_le {A} (p : A → bool) (l : list A) :
  length (List.filter p l) ≤ length l.
Proof.
  induction l as [|x l IH]; simpl; [done|]. destruct (p x); simpl; lia.
Qed.

Lemma filter_fixpoint {A} (p : A → bool) (l : list A) :
  List.filter p l = l ↔ forallb p l = true.
Proof.
  induction l as [|x l IH]; simpl; [done|].
  destruct (p x) eqn:Hx; simpl.
  - rewrite <- IH. split; [by intros [= ->]|by intros ->].
  - split; [|done]. intros Heq.
    pose proof (filter_length_le p l) as Hle.
    rewrite Heq in Hle. simpl in Hle. lia.
Qed.

Lemma filter_commute {A} (p q : A → bool) (l : list A) :
  List.filter p (List.filter q l) = List.filter q (List.filter p l).
Proof.
  rewrite !filter_twice. apply List.filter_ext. intros x. apply andb_comm.
Qed.

Lemma filter_fst {A B} (p : A → bool) (t : list (A * B)) :
  (List.filter (λ kd, p kd.1) t).*1 = List.filter p t.*1.
Proof.
  induction t as [|[k d] t IH]; [done|].
  rewrite fmap_cons. cbn [List.filter fst].
  destruct (p k); [rewrite fmap_cons|]; by rewrite IH.
Qed.

(** X5. [removePrivateKeys] returns an array without private keys, never
    longer than the one it was given; it returns the array as it was
    exactly when the array had no private key, so that censoring twice is
    censoring once. *)
Theorem removePrivateKeys_idempotent (w : world) (array : list value) :
  existsb (isPrivate w) (removePrivateKeys w array) = false
  ∧ length (removePrivateKeys w array) ≤ length array
  ∧ (removePrivateKeys w array = array ↔ existsb (isPrivate w) array = false)
  ∧ removePrivateKeys w (removePrivateKeys w array) = removePrivateKeys w array.
Proof.
  assert (Hclean : ∀ l, forallb (public w) (List.filter (public w) l) = true).
  { intros l. apply List.forallb_forall. by intros x [_ Hx]%List.filter_In. }
  rewrite !removePrivateKeys_filter.
  split; [|split; [|split]].
  - apply negb_true_iff. rewrite <- forallb_public_existsb. apply Hclean.
  - apply filter_length_le.
  - rewrite filter_fixpoint, forallb_public_existsb. apply negb_true_iff.
  - apply filter_fixpoint, Hclean.
Qed.

Lemma removePrivateKeys_idempotent_witness :
  removePrivateKeys example_world [VStr "pub"; VSym 2%positive]
  = [VStr "pub"; VSym 2%positive].
Proof.
  destruct (removePrivateKeys_idempotent example_world
              [VStr "pub"; VSym 2%positive]) as (_ & _ & [_ Hsame] & _).
  apply Hsame. reflexivity.
Defined.

(** X6. On an object the three replaced reflection functions agree with
    one another: the keys of the record [Object.getOwnPropertyDescriptors]
    returns are, in order, the keys [Reflect.ownKeys] returns, none of them
    private, and [Object.getOwnPropertySymbols] returns the symbols among
    them. *)
Theorem reflection_functions_agree (r : ref) (w : world) :
  ∃ keys descriptors,
    Reflect_ownKeys (VRef r) w = (Ret keys, w)
    ∧ Object_getOwnPropertyDescriptors (VRef r) w = (Ret descriptors, w)
    ∧ descriptors.*1 = keys
    ∧ Object_getOwnPropertySymbols (VRef r) w
      = (Ret (List.filter is_symbol keys), w)
    ∧ existsb (isPrivate w) keys = false.
Proof.
  exists (List.filter (public w) (own_table w r).*1),
         (List.filter (λ kd, public w kd.1) (own_table w r)).
  split; [|split; [|split; [|split]]].
  - unfold Reflect_ownKeys, bind. simpl. by rewrite removePrivateKeys_filter.
  - unfold Object_getOwnPropertyDescriptors, bind. simpl.
    by rewrite delete_private_symbols.
  - apply filter_fst.
  - unfold Object_getOwnPropertySymbols, bind. simpl.
    by rewrite removePrivateKeys_filter, filter_commute.
  - apply negb_true_iff. rewrite <- forallb_public_existsb.
    apply List.forallb_forall. by intros x [_ Hx]%List.filter_In.
Qed.

End PolyfillMore.

(** * Further properties of commonjs-helpers.js *)

Module CommonJSMore.
Import CommonJS CommonJSFacts.
Local Open Scope nat_scope.
Local Open Scope list_scope.

(** ** Sessions and the weak maps *)

Section sessions.

Variable describe : value → string.
Variable object_toString : ref → completion string.

(** [get] of a session, case by case. *)
Lemma session_get_cases (s : session) (O : value) (K : string) (h : weak_heap) :
  session_get describe object_toString s O K h =
  if decide (K ∈ session_refs s) then
    match O with
    | VRef r =>
        match session_exported s !! K with
        | Some wm =>
            match (h !!! wm) !! r with
            | Some v => (Ret v, h)
            | None =>
                (Throw (described_error describe object_toString
                          (MissingField (session_TE s) K) O), h)
            end
        | None => (Throw incompatible_receiver, h)
        end
    | _ =>
        (Throw (TypeMismatch (session_TE s) K (toString_primitive describe O)),
         h)
    end
  else (Throw (InvalidKey K), h).
Proof.
  unfold session_get, bind, transact.
  destruct (decide (K ∈ session_refs s)) as [HK|HK].
  - rewrite (bool_decide_eq_true_2 _ HK). simpl. rewrite non_object_check.
    destruct O as [| | | | | |r]; try done.
    unfold bind, weakHas, weakGet. simpl.
    destruct (session_exported s !! K) as [wm|]; simpl; [|done].
    destruct ((h !!! wm) !! r) as [v|] eqn:Hv.
    + rewrite (bool_decide_eq_true_2 (is_Some (Some v))) by eauto.
      unfold ret. simpl. by rewrite Hv.
    + rewrite (bool_decide_eq_false_2 (is_Some None)) by (by intros [? ?]).
      simpl. by rewrite throw_described_run.
  - by rewrite (bool_decide_eq_false_2 _ HK).
Qed.

(** [set] of a session, case by case. *)
Lemma session_set_cases (s : session) (O : value) (K : string) (V : value)
    (h : weak_heap) :
  session_set describe object_toString s O K V h =
  if decide (K ∈ session_refs s) then
    match O with
    | VRef r =>
        match session_exported s !! K with
        | Some wm =>
            match (h !!! wm) !! r with
            | Some _ => (Ret V, <[wm := <[r := V]> (h !!! wm)]> h)
            | None =>
                (Throw (described_error describe object_toString
                          (MissingField (session_TE s) K) O), h)
            end
        | None => (Throw incompatible_receiver, h)
        end
    | _ =>
        (Throw (TypeMismatch (session_TE s) K (toString_primitive describe O)),
         h)
    end
  else (Throw (InvalidKey K), h).
Proof.
  unfold session_set, bind, transact.
  destruct (decide (K ∈ session_refs s)) as [HK|HK].
  - rewrite (bool_decide_eq_true_2 _ HK). simpl. rewrite non_object_check.
    destruct O as [| | | | | |r]; try done.
    unfold bind, weakHas, weakSet. simpl.
    destruct (session_exported s !! K) as [wm|]; simpl; [|done].
    destruct ((h !!! wm) !! r) as [v|] eqn:Hv.
    + by rewrite (bool_decide_eq_true_2 (is_Some (Some v))) by eauto.
    + rewrite (bool_decide_eq_false_2 (is_Some None)) by (by intros [? ?]).
      simpl. by rewrite throw_described_run.
  - by rewrite (bool_decide_eq_false_2 _ HK).
Qed.

(** What a [set] that returns has done. *)
Lemma session_set_returns s O K V h c h' :
  session_set describe object_toString s O K V h = (Ret c, h') →
  c = V
  ∧ ∃ wm r, O = VRef r
            ∧ K ∈ session_refs s
            ∧ session_exported s !! K = Some wm
            ∧ is_Some ((h !!! wm) !! r)
            ∧ h' = <[wm := <[r := V]> (h !!! wm)]> h.
Proof.
  rewrite session_set_cases.
  destruct (decide (K ∈ session_refs s)); [|done].
  destruct O as [| | | | | |r]; try done.
  destruct (session_exported s !! K) as [wm|]; [|done].
  destruct ((h !!! wm) !! r) as [v|] eqn:Hv; [|done].
  intros [= <- <-]. split; [done|]. exists wm, r. eauto 10.
Qed.

(** X7. A value written by [set] is read back by [get]: through the same
    session and name, and through any session and any name authorized in
    it that stands for the same weak map (another importer of the same
    exporter, or a second name the exporter gave the weak map). *)
Theorem set_then_get (s : session) (O : value) (K : string) (V c : value)
    (h h' : weak_heap) :
  session_set describe object_toString s O K V h = (Ret c, h') →
  c = V
  ∧ session_get describe object_toString s O K h' = (Ret V, h')
  ∧ ∀ s2 K2, K2 ∈ session_refs s2 →
             session_exported s2 !! K2 = session_exported s !! K →
             session_get describe object_toString s2 O K2 h' = (Ret V, h').
Proof.
  intros (-> & wm & r & -> & HK & Hwm & _ & ->)%session_set_returns.
  assert (Hread : ∀ s2 K2, K2 ∈ session_refs s2 →
                           session_exported s2 !! K2 = Some wm →
            session_get describe object_toString s2 (VRef r) K2
              (<[wm := <[r := V]> (h !!! wm)]> h)
            = (Ret V, <[wm := <[r := V]> (h !!! wm)]> h)).
  { intros s2 K2 HK2 Hwm2. rewrite session_get_cases.
    destruct (decide (K2 ∈ session_refs s2)); [|done].
    by rewrite Hwm2, lookup_total_insert_eq, lookup_insert_eq. }
  split; [done|]. split; [by apply Hread|].
  intros s2 K2 HK2 Heq. apply Hread; [done|]. by rewrite Heq.
Qed.

(** X8. [get] and [set] never give an object a field and never take one
    away: after a call every weak map has entries for the same objects as
    before. [get] does not change the weak maps at all, and neither does a
    [set] that throws. *)
Theorem fields_are_never_created (s : session) (O : value) (K : string)
    (V : value) (h : weak_heap) :
  (session_get describe object_toString s O K h).2 = h
  ∧ (∀ wm, dom ((session_set describe object_toString s O K V h).2 !!! wm) = dom (h !!! wm))
  ∧ (∀ e, (session_set describe object_toString s O K V h).1 = Throw e →
          (session_set describe object_toString s O K V h).2 = h).
Proof.
  rewrite session_get_cases, session_set_cases.
  destruct (decide (K ∈ session_refs s)); [|done].
  destruct O as [| | | | | |r]; try done.
  destruct (session_exported s !! K) as [wm|]; [|done].
  destruct ((h !!! wm) !! r) as [v|] eqn:Hv; [|done]. simpl.
  split; [done|]. split; [|done].
  intros wm'. destruct (decide (wm = wm')) as [<-|Hne].
  - rewrite lookup_total_insert_eq, dom_insert_L.
    apply elem_of_dom_2 in Hv. set_solver.
  - by rewrite lookup_total_insert_ne.
Qed.

(** X9. A [set] on one object is not seen on another: whatever session
    and name is used, [get] on a different object completes after the
    [set] as it did before. Nor is it seen through a name that stands for
    a different weak map, on any object. *)
Theorem set_leaves_other_fields (s : session) (O : value) (K : string)
    (V : value) (h : weak_heap) (s2 : session) (O2 : value) (K2 : string) :
  O2 ≠ O ∨ session_exported s2 !! K2 ≠ session_exported s !! K →
  (session_get describe object_toString s2 O2 K2 (session_set describe object_toString s O K V h).2).1
  = (session_get describe object_toString s2 O2 K2 h).1.
Proof.
  intros Hother. rewrite session_set_cases.
  destruct (decide (K ∈ session_refs s)); [|done].
  destruct O as [| | | | | |r]; try done.
  destruct (session_exported s !! K) as [wm|] eqn:Hwm; [|done].
  destruct ((h !!! wm) !! r) as [v|] eqn:Hv; [|done]. simpl.
  rewrite !session_get_cases.
  destruct (decide (K2 ∈ session_refs s2)); [|done].
  destruct O2 as [| | | | | |r2]; try done.
  destruct (session_exported s2 !! K2) as [wm2|] eqn:Hwm2; [|done].
  destruct (decide (wm = wm2)) as [<-|Hne].
  - rewrite lookup_total_insert_eq.
    destruct (decide (r = r2)) as [<-|Hr]; [by destruct Hother|].
    rewrite lookup_insert_ne by done. by destruct ((h !!! wm) !! r2).
  - rewrite lookup_total_insert_ne by done. by destruct ((h !!! wm2) !! r2).
Qed.

End sessions.

Lemma set_then_get_witness :
  session_get example_describe example_object_toString example_session example_object "elem"
    (session_set example_describe example_object_toString example_session example_object "elem"
       (VNum 6) example_heap).2
  = (Ret (VNum 6),
     (session_set example_describe example_object_toString example_session example_object "elem"
        (VNum 6) example_heap).2).
Proof.
  destruct (set_then_get example_describe example_object_toString example_session example_object
              "elem" (VNum 6) (VNum 6) example_heap
              (session_set example_describe example_object_toString example_session example_object
                 "elem" (VNum 6) example_heap).2)
    as (_ & Hget & _); [vm_compute; reflexivity|].
  exact Hget.
Defined.

Lemma set_leaves_other_fields_witness :
  (session_get example_describe example_object_toString example_session
     (VRef (KObject, 8%positive)) "elem"
     (session_set example_describe example_object_toString example_session example_object "elem"
        (VNum 6) example_heap).2).1
  = (session_get example_describe example_object_toString example_session
       (VRef (KObject, 8%positive)) "elem" example_heap).1.
Proof.
  apply (set_leaves_other_fields example_describe example_object_toString example_session
           example_object "elem" (VNum 6) example_heap example_session
           (VRef (KObject, 8%positive)) "elem").
  left. discriminate.
Defined.

(** ** The exporter and its consumers *)

Section exporter.

Variable internalRefs : gmap string value.
Variable resolve : string → completion string.
Variable all : list string.
Variable scoped : list (string * list string).
Variable b : broker.
Hypothesis setup : makeExportedKeys internalRefs resolve all scoped = Ret b.

Lemma perConsumerKeys_entry consumer names :
  perConsumerKeys resolve scoped consumer = Some names →
  ∃ key, (key, names) ∈ scoped ∧ resolve key = Ret consumer.
Proof using Type.
  clear setup. induction scoped as [|[key ns] sc IH]; simpl; [done|].
  destruct (perConsumerKeys resolve sc consumer).
  - intros Heq. destruct (IH Heq) as (k & Hin & Hk). exists k.
    split; [by right|done].
  - destruct (resolve key) as [filename|e] eqn:Hkey; [|done].
    destruct (decide (filename = consumer)) as [->|]; [|done].
    intros [= <-]. exists key. split; [left|done].
Qed.

(** X10. The broker reaches the weak maps of the key names the exporter
    referred to and no other: its [exported] map sends a referenced name to
    the weak map [internalRefs] has for it, and has nothing for a name that
    is in neither the global list nor a consumer's list. *)
Theorem exported_holds_referenced_stores (key : string) :
  exported b !! key =
  if decide (key ∈ referenced all scoped)
  then as_WeakMap (internalRefs !! key)
  else None.
Proof using setup.
  destruct (makeExportedKeys_broker internalRefs _ _ _ _ setup)
    as (_ & Hst & Hdom & _).
  destruct (decide (key ∈ referenced all scoped)) as [Hin|Hout].
  - assert (Hd : key ∈ dom (exported b))
      by (rewrite Hdom; by apply elem_of_list_to_set).
    apply elem_of_dom in Hd as [wm Hwm]. rewrite Hwm. symmetry. by apply Hst.
  - apply not_elem_of_dom. rewrite Hdom. by rewrite elem_of_list_to_set.
Qed.

(** X11. Consumers are kept apart. A session a consumer gets is
    authorized only for names of the global list and for names listed
    under an entry of [scoped] that resolves to that very consumer; and
    every name of the global list is granted to every consumer that asks
    for it alone. *)
Theorem sessions_respect_consumers (filename : string) (TE : ctor)
    (keys : list string) (s : session) :
  factory b filename TE keys = inr s →
  (∀ K, K ∈ session_refs s →
        K ∈ all
        ∨ ∃ key names, (key, names) ∈ scoped
                       ∧ resolve key = Ret filename ∧ K ∈ names)
  ∧ (∀ K consumer, K ∈ all → ∃ s', factory b consumer TE [K] = inr s').
Proof using setup.
  intros Hs. split.
  - rewrite (factory_spec internalRefs _ _ _ _ _ _ _ setup) in Hs.
    destruct (List.find _ keys) eqn:Hfind; [done|]. injection Hs as <-. simpl.
    intros K HK%elem_of_list_to_set.
    pose proof (List.find_none _ _ Hfind K (proj1 (list_elem_of_In _ _) HK))
      as HKa.
    apply negb_false_iff, bool_decide_eq_true in HKa.
    unfold effective_allow_list in HKa.
    destruct (perConsumerKeys resolve scoped filename) as [names|] eqn:Hc.
    + apply elem_of_union in HKa as [HKa|HKa];
        apply elem_of_list_to_set in HKa; [by left|].
      right. destruct (perConsumerKeys_entry _ _ Hc) as (key & Hin & Hkey).
      eauto.
    + apply elem_of_list_to_set in HKa. by left.
  - intros K consumer HK.
    rewrite (factory_spec internalRefs _ _ _ _ _ _ _ setup). simpl.
    rewrite (bool_decide_eq_true_2 (K ∈ effective_allow_list _ _ _ _)); simpl;
      [eauto|].
    unfold effective_allow_list.
    destruct (perConsumerKeys resolve scoped consumer);
      rewrite ?elem_of_union, !elem_of_list_to_set; auto.
Qed.

(** X12. An importer against this exporter. [init] returns normally
    exactly when every requested name is in the effective allow-list of the
    caller, and the importer is then bound to a session for the requested
    names; otherwise [init] throws a reference error and the importer holds
    the first requested name that is not allowed. *)
Theorem init_binds_iff_allowed (imp : importer) (filename : string)
    (keys : list string) :
  let allowed := effective_allow_list resolve all scoped filename in
  if forallb (λ key, bool_decide (key ∈ allowed)) keys then
    init imp (exporter_module b) filename keys
    = (Ret (),
       Importer (importer_TE imp) (importer_RE imp)
         (inr (Session (list_to_set keys) (importer_TE imp) (exported b))))
  else
    ∃ name before after,
      keys = before ++ (name :: after)
      ∧ (name ∉ allowed)
      ∧ (∀ key, key ∈ before → key ∈ allowed)
      ∧ init imp (exporter_module b) filename keys
        = (Throw (not_referenced (importer_RE imp)
                    (default "undefined" (keys !! 0)) name),
           Importer (importer_TE imp) (importer_RE imp) (inl name)).
Proof using setup.
  intros allowed. unfold init, exporter_module.
  rewrite (factory_spec internalRefs _ _ _ _ _ _ _ setup). fold allowed.
  assert (Hfind : ∀ l,
            match List.find (λ key, negb (bool_decide (key ∈ allowed))) l with
            | Some name =>
                forallb (λ key, bool_decide (key ∈ allowed)) l = false
                ∧ ∃ before after,
                    l = before ++ (name :: after) ∧ (name ∉ allowed)
                    ∧ ∀ key, key ∈ before → key ∈ allowed
            | None => forallb (λ key, bool_decide (key ∈ allowed)) l = true
            end).
  { induction l as [|x l IH]; simpl; [done|]. case_bool_decide as Hx; simpl.
    - destruct (List.find _ l) as [name|]; [|done].
      destruct IH as (Hall & before & after & -> & Hname & Hbefore).
      split; [done|]. exists (x :: before), after. split; [done|].
      split; [done|]. intros key [->|Hin]%elem_of_cons; auto.
    - split; [done|]. exists [], l. split; [done|]. split; [done|].
      intros key Hin. by apply not_elem_of_nil in Hin. }
  specialize (Hfind keys).
  destruct (List.find _ keys) as [name|].
  - destruct Hfind as (-> & before & after & Hkeys & Hname & Hbefore).
    exists name, before, after. eauto.
  - by rewrite Hfind.
Qed.

End exporter.

(** X13. Whether the factory grants a request depends on the set of
    requested names only: when a request is granted, so is every request
    made of names of it, in any order and with repetitions, and the session
    is authorized for exactly the names of the new request. *)
Theorem factory_grants_subrequests (b : broker) (filename : string)
    (TE : ctor) (keys keys' : list string) (s : session) :
  factory b filename TE keys = inr s →
  (∀ key, key ∈ keys' → key ∈ keys) →
  factory b filename TE keys'
  = inr (Session (list_to_set keys') TE (exported b)).
Proof.
  unfold factory. rewrite !authorize_spec. intros Hs Hsub.
  destruct (List.find _ keys) eqn:Hfind; [done|].
  destruct (List.find _ keys') as [bad|] eqn:Hfind'.
  - apply List.find_some in Hfind' as [Hin Hbad].
    apply list_elem_of_In, Hsub, list_elem_of_In in Hin.
    rewrite (List.find_none _ _ Hfind bad Hin) in Hbad. discriminate.
  - do 2 f_equal. set_solver.
Qed.

Lemma perConsumerKeys_app resolve (scoped1 scoped2 : list (string * list string))
    consumer :
  perConsumerKeys resolve (scoped1 ++ scoped2) consumer =
  match perConsumerKeys resolve scoped2 consumer with
  | Some names => Some names
  | None => perConsumerKeys resolve scoped1 consumer
  end.
Proof.
  induction scoped1 as [|[key names] scoped1 IH]; simpl.
  - by destruct (perConsumerKeys resolve scoped2 consumer).
  - rewrite IH. by destruct (perConsumerKeys resolve scoped2 consumer).
Qed.

Lemma perConsumerKeys_none resolve (scoped : list (string * list string))
    consumer :
  (∀ key names, (key, names) ∈ scoped → resolve key ≠ Ret consumer) →
  perConsumerKeys resolve scoped consumer = None.
Proof.
  induction scoped as [|[key names] scoped IH]; intros Hno; simpl; [done|].
  rewrite IH by (intros k ns Hin; apply (Hno k ns); by right).
  destruct (resolve key) as [filename|e] eqn:Hkey; [|done].
  destruct (decide (filename = consumer)) as [->|]; [|done].
  by destruct (Hno key names ltac:(left)).
Qed.

(** X18. When two entries of [scoped] resolve to the same file, the later
    one replaces the earlier one instead of adding to it: the consumer is
    refused every name that is neither in the global list nor in the list
    of the last entry that resolves to it, also a name an earlier entry
    lists for it. *)
Theorem later_entry_replaces_earlier (internalRefs : gmap string value)
    (resolve : string → completion string) (all : list string)
    (scoped1 scoped2 : list (string * list string)) (key2 : string)
    (names2 : list string) (b : broker) (filename : string) (TE : ctor)
    (K : string) :
  makeExportedKeys internalRefs resolve all
    (scoped1 ++ (key2, names2) :: scoped2) = Ret b →
  resolve key2 = Ret filename →
  (∀ key names, (key, names) ∈ scoped2 → resolve key ≠ Ret filename) →
  K ∉ all → K ∉ names2 →
  factory b filename TE [K] = inl K.
Proof.
  intros Hb Hkey2 Hlast Hall Hnames.
  rewrite (factory_spec internalRefs _ _ _ _ _ _ _ Hb). simpl.
  unfold effective_allow_list.
  rewrite perConsumerKeys_app. simpl.
  rewrite (perConsumerKeys_none _ _ _ Hlast), Hkey2.
  destruct (decide (filename = filename)); [|done].
  rewrite bool_decide_eq_false_2; [done|].
  rewrite elem_of_union, !elem_of_list_to_set. tauto.
Qed.

Lemma later_entry_replaces_earlier_witness :
  factory example_broker_twice "/app/friend.js" CTypeError ["secret"]
  = inl "secret".
Proof.
  apply (later_entry_replaces_earlier example_internalRefs
           example_resolve_friend example_all [("friend.js", ["secret"])] []
           "./friend.js" [] example_broker_twice "/app/friend.js" CTypeError
           "secret").
  - vm_compute. reflexivity.
  - reflexivity.
  - intros key names Hin. by apply not_elem_of_nil in Hin.
  - intros Hin. apply list_elem_of_In in Hin. simpl in Hin.
    destruct Hin as [Heq|[]]. discriminate.
  - apply not_elem_of_nil.
Defined.

Lemma fields_are_never_created_witness :
  (session_set example_describe example_object_toString example_session (VNum 3) "elem" (VNum 6)
     example_heap).2 = example_heap.
Proof.
  destruct (fields_are_never_created example_describe example_object_toString example_session
              (VNum 3) "elem" (VNum 6) example_heap) as (_ & _ & Hthrows).
  eapply Hthrows. vm_compute. reflexivity.
Defined.

Lemma sessions_respect_consumers_witness :
  "elem" ∈ example_all
  ∨ ∃ key names, (key, names) ∈ example_scoped
                 ∧ example_resolve key = Ret "/app/importer.js"
                 ∧ "elem" ∈ names.
Proof.
  destruct (sessions_respect_consumers example_internalRefs example_resolve
              example_all example_scoped example_broker
              ltac:(vm_compute; reflexivity)
              "/app/importer.js" CTypeError ["elem"] example_session)
    as [Honly _]; [vm_compute; reflexivity|].
  apply Honly. vm_compute. reflexivity.
Defined.

Lemma exported_holds_referenced_stores_witness :
  exported example_broker !! "secret" = Some 2%positive
  ∧ exported example_broker !! "other" = None.
Proof.
  split.
  - rewrite (exported_holds_referenced_stores example_internalRefs
               example_resolve example_all example_scoped example_broker
               ltac:(vm_compute; reflexivity) "secret").
    vm_compute. reflexivity.
  - rewrite (exported_holds_referenced_stores example_internalRefs
               example_resolve example_all example_scoped example_broker
               ltac:(vm_compute; reflexivity) "other").
    vm_compute. reflexivity.
Defined.

Lemma init_binds_iff_allowed_witness :
  init example_importer (exporter_module example_broker) "/app/friend.js"
    ["secret"; "elem"]
  = (Ret (),
     Importer CTypeError CReferenceError
       (inr (Session {[ "secret"; "elem" ]} CTypeError
               (exported example_broker)))).
Proof.
  pose proof (init_binds_iff_allowed example_internalRefs example_resolve
                example_all example_scoped example_broker
                ltac:(vm_compute; reflexivity)
                example_importer "/app/friend.js" ["secret"; "elem"])
    as Hinit.
  cbv zeta in Hinit.
  match type of Hinit with
  | if ?test then _ else _ =>
      assert (Htest : test = true) by (vm_compute; reflexivity);
      rewrite Htest in Hinit
  end.
  rewrite Hinit. vm_compute. reflexivity.
Defined.

Lemma factory_grants_subrequests_witness :
  factory example_broker "/app/friend.js" CTypeError ["secret"; "secret"]
  = inr (Session {[ "secret" ]} CTypeError (exported example_broker)).
Proof.
  rewrite (factory_grants_subrequests example_broker "/app/friend.js"
             CTypeError ["elem"; "secret"] ["secret"; "secret"]
             (Session {[ "elem"; "secret" ]} CTypeError
                (exported example_broker))).
  - vm_compute. reflexivity.
  - vm_compute. reflexivity.
  - intros key Hin. apply list_elem_of_In. apply list_elem_of_In in Hin.
    simpl in *. tauto.
Defined.

End CommonJSMore.

(** * Properties of the importer for [__exportedRefs] *)

Module ExportedRefsFacts.
Import CommonJS ExportedRefs.
Local Open Scope nat_scope.
Local Open Scope list_scope.

(** ** Decimal numerals *)

Lemma pretty_N_char_digit (x : N) : is_digit (pretty_N_char x) = true.
Proof.
  destruct x as [|p]; [done|].
  do 4 (try destruct p as [p|p|]; try done).
Qed.

Lemma pretty_N_go_digits (x : N) :
  ∀ s, all_digits s = true → all_digits (pretty_N_go x s) = true.
Proof.
  induction (N.lt_wf_0 x) as [x _ IH]; intros s Hs.
  destruct (decide (x = 0)%N) as [->|Hx]; [by rewrite pretty_N_go_0|].
  rewrite pretty_N_go_step by lia. apply IH.
  - apply N.div_lt; lia.
  - simpl. by rewrite pretty_N_char_digit.
Qed.

Lemma pretty_digits (n : nat) : all_digits (pretty n) = true.
Proof.
  unfold pretty, pretty_nat, pretty, pretty_N.
  destruct (decide (N.of_nat n = 0)%N); [done|]. by apply pretty_N_go_digits.
Qed.

Lemma pretty_N_go_nonempty (x : N) :
  ∀ s, s ≠ "" → pretty_N_go x s ≠ "".
Proof.
  induction (N.lt_wf_0 x) as [x _ IH]; intros s Hs.
  destruct (decide (x = 0)%N) as [->|Hx]; [by rewrite pretty_N_go_0|].
  rewrite pretty_N_go_step by lia. apply IH; [apply N.div_lt; lia|done].
Qed.

Lemma pretty_nonempty (n : nat) : pretty n ≠ "".
Proof.
  unfold pretty, pretty_nat, pretty, pretty_N.
  destruct (decide (N.of_nat n = 0)%N) as [|Hn]; [done|].
  rewrite pretty_N_go_step by lia. by apply pretty_N_go_nonempty.
Qed.

Lemma index_names_digits (n : nat) (name : string) :
  name ∈ index_names n → all_digits name = true.
Proof.
  unfold index_names. intros (i & -> & _)%list_elem_of_fmap. apply pretty_digits.
Qed.

Lemma digits_no_comma (s : string) :
  all_digits s = true → contains "," s = false.
Proof.
  induction s as [|c s IH]; [done|].
  cbn [all_digits contains String.prefix].
  intros [Hc Hs]%andb_true_iff. rewrite (IH Hs), orb_false_r.
  match goal with
  | |- context [Ascii.ascii_dec ?comma c] =>
      destruct (Ascii.ascii_dec comma c) as [<-|]; [discriminate Hc|done]
  end.
Qed.

Lemma contains_comma_app (a b : string) : contains "," (a +:+ "," +:+ b) = true.
Proof.
  induction a as [|c a IH]; simpl.
  - by destruct b.
  - rewrite IH. apply orb_true_r.
Qed.

(** [String(keys)] for two or more keys is not the name of an own property
    of an array. *)
Lemma hasOwn_array_several (n : nat) (k1 k2 : string) (rest : list string) :
  hasOwn_array n (array_toString (k1 :: k2 :: rest)) = false.
Proof.
  apply bool_decide_eq_false. rewrite elem_of_app, list_elem_of_singleton.
  assert (Hcomma : contains "," (array_toString (k1 :: k2 :: rest)) = true)
    by apply contains_comma_app.
  intros [Hin%index_names_digits%digits_no_comma|Heq]; [congruence|].
  rewrite Heq in Hcomma. discriminate.
Qed.

(** ** [init] *)

Lemma censor_not_own exportedRefs names censored :
  censor exportedRefs false names censored = Ret censored.
Proof. induction names as [|key names IH]; simpl; auto. Qed.

Lemma censor_names exportedRefs own names :
  ∀ censored censored',
    censor exportedRefs own names censored = Ret censored' →
    ∀ key, is_Some (censored' !! key) →
           is_Some (censored !! key) ∨ key ∈ names.
Proof.
  induction names as [|name names IH]; intros censored censored'; simpl.
  - intros [= <-]. auto.
  - destruct own.
    + destruct (as_WeakMap _) as [wm|]; [|done]. intros Hrun key Hkey.
      destruct (IH _ _ Hrun key Hkey) as [Hin|Hin]; [|right; by right].
      destruct (decide (name = key)) as [->|Hne]; [right; left|].
      rewrite lookup_insert_ne in Hin by done. auto.
    + intros Hrun key Hkey.
      destruct (IH _ _ Hrun key Hkey) as [Hin|Hin]; [by left|right; by right].
Qed.

Lemma finish_binding exported missing keys :
  (finish exported missing keys).2 = exported.
Proof. by destruct exported. Qed.

Lemma init_numeral_names exported modl keys :
  numeral_names exported → numeral_names (init exported modl keys).2.
Proof.
  intros Hinv. destruct modl as [| |[exportedRefs|]]; simpl; try done.
  - destruct (censor _ _ _ ∅) as [censored|e] eqn:Hrun; [|done].
    rewrite finish_binding.
    destruct (first_missing censored keys); [done|]. simpl.
    intros key Hkey.
    destruct (censor_names _ _ _ _ _ Hrun key Hkey) as [Hin|Hin].
    + rewrite lookup_empty in Hin. by destruct Hin.
    + by apply index_names_digits in Hin.
  - by rewrite finish_binding.
Qed.

Lemma inits_numeral_names calls :
  ∀ exported, numeral_names exported → numeral_names (inits exported calls).
Proof.
  induction calls as [|[modl keys] calls IH]; intros exported Hinv; simpl;
    [done|].
  by apply IH, init_numeral_names.
Qed.

Section importer.

Variable describe : value → string.
Variable object_toString : ref → completion string.
Variable global_V : option value.

(** X14. Through this importer only key names that are decimal numerals
    can ever be reached. Whatever [init] calls have been made, with
    whatever modules and requests, [get] and [set] with a name that is not
    made of decimal digits throw, a reference error while nothing is bound
    and the invalid-key error afterwards, and leave the weak maps alone. *)
Theorem only_numeral_names_are_imported (source : string)
    (calls : list (module_instance * list string)) (O : value) (key : string)
    (val : value) (h : weak_heap) :
  all_digits key = false →
  let exported := inits (getExportedKeys source) calls in
  ∃ e, (e = InvalidKey key
        ∨ ∃ from, e = not_referenced CReferenceError key from)
       ∧ get describe object_toString exported O key h = (Throw e, h)
       ∧ set describe object_toString global_V exported O key val h
         = (Throw e, h).
Proof.
  intros Hkey exported.
  assert (Hinv : numeral_names exported)
    by (by apply inits_numeral_names).
  unfold get, set, bind, transact. destruct exported as [from|m].
  - exists (not_referenced CReferenceError key from). eauto.
  - exists (InvalidKey key). split; [by left|].
    destruct (m !! key) as [store|] eqn:Hm; [|done].
    rewrite (Hinv key) in Hkey by eauto. discriminate.
Qed.

(** [transact] leaves the weak maps alone. *)
Lemma transact_heap (exported : binding) (O : value) (key : string)
    (h : weak_heap) :
  (transact describe object_toString exported O key h).2 = h.
Proof.
  unfold transact. destruct exported as [from|m]; [done|].
  destruct (m !! key); [|done].
  destruct (is_nullish O || _);
    [by rewrite CommonJSFacts.throw_described_run|].
  unfold bind, weakHas. simpl.
  destruct O as [| | | | | |r]; simpl;
    rewrite ?CommonJSFacts.throw_described_run; try done.
  destruct (bool_decide _); simpl;
    rewrite ?CommonJSFacts.throw_described_run; done.
Qed.

(** X15. [set] never stores the value it is given: what it would store
    is the global [V]. Where no global is named [V], every call of [set]
    throws and the weak maps stay as they are, in every state of the
    importer: reading [V] throws a reference error once the checks of
    [transact] have passed. *)
Theorem set_never_stores (exported : binding) (O : value) (key : string)
    (val : value) (h : weak_heap) :
  global_V = None →
  ∃ e, set describe object_toString global_V exported O key val h
       = (Throw e, h)
       ∧ ((∃ v, get describe object_toString exported O key h = (Ret v, h)) →
          e = Exn CReferenceError "V is not defined").
Proof.
  intros ->. unfold set, get, bind.
  pose proof (transact_heap exported O key h) as Hheap.
  destruct (transact describe object_toString exported O key h)
    as [[store|e] h'] eqn:Hrun; simpl in Hheap; subst h'.
  - exists (Exn CReferenceError "V is not defined"). split; done.
  - exists e. split; [done|]. by intros [v Hv].
Qed.

End importer.

(** X16. A request for two or more names is never granted. When the
    module publishes [__exportedRefs], [init] with such a request leaves
    the binding as it was, whatever the module publishes: on an importer
    that is not bound yet it throws a reference error that names the first
    requested key and the source. *)
Theorem several_names_are_never_granted (exported : binding)
    (exportedRefs : list (string * value)) (k1 k2 : string)
    (rest : list string) :
  (init exported (Exports (Some exportedRefs)) (k1 :: k2 :: rest)).2 = exported
  ∧ ∀ source,
      exported = getExportedKeys source →
      init exported (Exports (Some exportedRefs)) (k1 :: k2 :: rest)
      = (Throw (not_referenced CReferenceError k1 source), exported).
Proof.
  unfold init. rewrite hasOwn_array_several, censor_not_own.
  unfold first_missing. simpl. split.
  - apply finish_binding.
  - by intros source ->.
Qed.

(** X17. An empty request binds the importer to nothing. With a module
    that publishes [__exportedRefs], [init] with no key returns normally in
    every state, also on an importer that was bound before, and afterwards
    [get] throws the invalid-key error for every name. *)
Theorem empty_request_binds_nothing (describe : value → string)
    (object_toString : ref → completion string) (exported : binding) (exportedRefs : list (string * value)) (O : value)
    (key : string) (h : weak_heap) :
  init exported (Exports (Some exportedRefs)) [] = (Ret (), inr ∅)
  ∧ get describe object_toString (init exported (Exports (Some exportedRefs)) []).2 O key h
    = (Throw (InvalidKey key), h).
Proof.
  assert (Hinit : init exported (Exports (Some exportedRefs)) []
                  = (Ret (), inr ∅)).
  { unfold init. simpl.
    assert (Hown : hasOwn_array (length exportedRefs.*1) "" = false).
    { apply bool_decide_eq_false. rewrite elem_of_app, list_elem_of_singleton.
      intros [(i & Hi & _)%list_elem_of_fmap|Heq]; [|discriminate].
      by destruct (pretty_nonempty i). }
    by rewrite Hown, censor_not_own. }
  split; [done|]. rewrite Hinit. simpl. unfold get, bind, transact.
  by rewrite lookup_empty.
Qed.

(** The one kind of request this importer grants: a single name that is
    an index of the array of published names, every index being published
    as a weak map. *)
Lemma init_grants_an_index :
  init (getExportedKeys "./exporter.js")
    (Exports (Some [("0", VRef (KWeakMap, 1%positive))])) ["0"]
  = (Ret (), inr {[ "0" := 1%positive ]}).
Proof. vm_compute. reflexivity. Qed.

Lemma only_numeral_names_are_imported_witness :
  ∃ e, get example_describe example_object_toString
         (inits (getExportedKeys "./exporter.js")
            [(example_refs_module, ["elem"])])
         example_object "elem" example_heap
       = (Throw e, example_heap).
Proof.
  destruct (only_numeral_names_are_imported example_describe example_object_toString None
              "./exporter.js" [(example_refs_module, ["elem"])] example_object
              "elem" (VNum 6) example_heap)
    as (e & _ & Hget & _); [reflexivity|].
  exists e. exact Hget.
Defined.

Lemma set_never_stores_witness :
  ∃ e, set example_describe example_object_toString None (inr {[ "0" := 1%positive ]}) example_object
         "0" (VNum 6) example_heap
       = (Throw e, example_heap)
       ∧ e = Exn CReferenceError "V is not defined".
Proof.
  destruct (set_never_stores example_describe example_object_toString None
              (inr {[ "0" := 1%positive ]}) example_object "0" (VNum 6)
              example_heap eq_refl) as (e & Hset & Hread).
  exists e. split; [done|]. apply Hread. exists (VNum 5).
  vm_compute. reflexivity.
Defined.

Lemma several_names_are_never_granted_witness :
  init (getExportedKeys "./exporter.js") example_refs_module ["elem"; "x"]
  = (Throw (not_referenced CReferenceError "elem" "./exporter.js"),
     getExportedKeys "./exporter.js").
Proof.
  apply (several_names_are_never_granted (getExportedKeys "./exporter.js")).
  reflexivity.
Defined.

End ExportedRefsFacts.
